(** * Brickblock [Space]: a shallow embedding of [brickblock/space.py]

    The store of [brickblock.space.Space] is embedded as a record, and its
    methods as computations in a state-and-exception monad: a method may
    mutate the store and then raise, and the store that the exception leaves
    behind is part of the result.

    Scalars.  The numpy buffers hold [float64]; they are embedded as exact
    rationals [Q], so [+], [*], unary [-] and [/] are exact, [np.array_equal]
    is [Qeq_bool] on every component, and [np.any] tests a component
    against zero.  Rounding, infinities and NaN are outside the embedding. *)

From Stdlib Require Import QArith Qminmax ZArith Lia.
From stdpp Require Import base option list sorting gmap strings.

Local Open Scope nat_scope.

(** ** Vectors, faces and boxes *)

(** A row of three scalars: a point, a shape [(w, h, d)], a transform vector,
    or one of the [(3, 1)] columns [mean] and [total]. *)
Record vec3 : Type := V3 { vx : Q; vy : Q; vz : Q }.

Definition vzero : vec3 := V3 0 0 0.
Definition vadd (a b : vec3) : vec3 :=
  V3 (vx a + vx b) (vy a + vy b) (vz a + vz b).
Definition vmul (a b : vec3) : vec3 :=
  V3 (vx a * vx b) (vy a * vy b) (vz a * vz b).
Definition vneg (a : vec3) : vec3 := V3 (- vx a) (- vy a) (- vz a).
Definition vdiv (a : vec3) (n : Q) : vec3 := V3 (vx a / n) (vy a / n) (vz a / n).
Definition vmin (a b : vec3) : vec3 :=
  V3 (Qmin (vx a) (vx b)) (Qmin (vy a) (vy b)) (Qmin (vz a) (vz b)).
Definition vmax (a b : vec3) : vec3 :=
  V3 (Qmax (vx a) (vx b)) (Qmax (vy a) (vy b)) (Qmax (vz a) (vz b)).

(** Equality of values, component by component. *)
Definition veq (a b : vec3) : Prop :=
  (vx a == vx b)%Q /\ (vy a == vy b)%Q /\ (vz a == vz b)%Q.
Definition vle (a b : vec3) : Prop :=
  (vx a <= vx b)%Q /\ (vy a <= vy b)%Q /\ (vz a <= vz b)%Q.

(** [np.array_equal] on two rows of three. *)
Definition array_equal (a b : vec3) : bool :=
  Qeq_bool (vx a) (vx b) && Qeq_bool (vy a) (vy b) && Qeq_bool (vz a) (vz b).

(** [np.any]: some component is non-zero. *)
Definition np_any (a : vec3) : bool :=
  negb (Qeq_bool (vx a) 0) || negb (Qeq_bool (vy a) 0) || negb (Qeq_bool (vz a) 0).

(** One face of a box is four points; a primitive is six faces: the
    [(6, 4, 3)] block of [cuboid_coordinates]. *)
Record face : Type := Face { p0 : vec3; p1 : vec3; p2 : vec3; p3 : vec3 }.
Record faces : Type :=
  Faces { f0 : face; f1 : face; f2 : face; f3 : face; f4 : face; f5 : face }.

Definition face_map (g : vec3 -> vec3) (f : face) : face :=
  Face (g (p0 f)) (g (p1 f)) (g (p2 f)) (g (p3 f)).
Definition faces_map (g : vec3 -> vec3) (c : faces) : faces :=
  Faces (face_map g (f0 c)) (face_map g (f1 c)) (face_map g (f2 c))
        (face_map g (f3 c)) (face_map g (f4 c)) (face_map g (f5 c)).

Definition face_points (f : face) : list vec3 := [p0 f; p1 f; p2 f; p3 f].
(** [c.reshape((24, 3))]. *)
Definition faces_points (c : faces) : list vec3 :=
  face_points (f0 c) ++ face_points (f1 c) ++ face_points (f2 c) ++
  face_points (f3 c) ++ face_points (f4 c) ++ face_points (f5 c).

Definition zero_face : face := Face vzero vzero vzero vzero.
Definition zero_faces : faces :=
  Faces zero_face zero_face zero_face zero_face zero_face zero_face.

(** [primitive[0, 0]]: the base vertex of a primitive. *)
Definition base_vertex (c : faces) : vec3 := p0 (f0 c).

(** A [(3, 2)] array: column 0 holds the per-axis minima, column 1 the
    per-axis maxima. *)
Record bounds : Type := Bounds { lo : vec3; hi : vec3 }.

Definition zero_bounds : bounds := Bounds vzero vzero.

(** [np.min(rows, axis=0)] and [np.max(rows, axis=0)] of a non-empty block. *)
Definition np_min (first : vec3) (rest : list vec3) : vec3 := foldl vmin first rest.
Definition np_max (first : vec3) (rest : list vec3) : vec3 := foldl vmax first rest.

(** [np.mean(rows, axis=0)]. *)
Definition np_mean (rows : list vec3) : vec3 :=
  vdiv (foldl vadd vzero rows) (inject_Z (Z.of_nat (length rows))).

(** ** Python values, slices, lists and arrays *)

(** The values of a visual property ([Any] in the source). *)
#[warnings="-register-all"]
Inductive pyval : Type :=
| PyNone
| PyFloat (q : Q)
| PyStr (s : string)
| PyList (l : list pyval).

(** [slice(start, stop)]. *)
Record slice : Type := Slice { start : nat; stop : nat }.

#[global] Instance slice_eq_dec : EqDecision slice.
Proof. solve_decision. Defined.

(** The bounds a sequence of length [n] clips [slice(start, stop)] to. *)
Definition clip_lo (sl : slice) (n : nat) : nat := start sl `min` n.
Definition clip_hi (sl : slice) (n : nat) : nat :=
  clip_lo sl n `max` (stop sl `min` n).

(** [a[sl]]. *)
Definition get_slice {A} (a : list A) (sl : slice) : list A :=
  take (clip_hi sl (length a) - clip_lo sl (length a)) (drop (clip_lo sl (length a)) a).

(** Python list: [col[sl] = vals] replaces the clipped range by [vals],
    whatever the length of [vals]. *)
Definition list_set_slice {A} (col : list A) (sl : slice) (vals : list A) : list A :=
  take (clip_lo sl (length col)) col ++ vals ++ drop (clip_hi sl (length col)) col.

(** numpy: [a[sl] = v] broadcasts one row over the clipped range. *)
Definition np_fill_slice {A} (a : list A) (sl : slice) (v : A) : list A :=
  list_set_slice a sl (replicate (clip_hi sl (length a) - clip_lo sl (length a)) v).

(** numpy: [a[sl] = block] needs as many rows as the clipped range has, or a
    single row to broadcast; anything else is a [ValueError]. *)
Definition np_set_slice {A} (a : list A) (sl : slice) (block : list A) : option (list A) :=
  let k := clip_hi sl (length a) - clip_lo sl (length a) in
  if decide (length block = k) then Some (list_set_slice a sl block)
  else match block with
       | [v] => Some (np_fill_slice a sl v)
       | _ => None
       end.

(** [a.resize((n, ...), refcheck=False)]: the rows keep their places, new rows
    are zero. *)
Definition np_resize {A} (zero : A) (n : nat) (a : list A) : list A :=
  take n a ++ replicate (n - length a) zero.

(** ** The input objects

    [brickblock/objects.py] builds [Cube], [Cuboid] and [CompositeCube]; the
    store only reads what their methods return, so an input object is the
    record of those answers. *)

(** A [Cube] or a [Cuboid]. *)
Record Cuboid : Type := {
  obj_faces : faces;                             (* .faces *)
  obj_shape : vec3;                              (* .shape() *)
  obj_bounding_box : bounds;                     (* .bounding_box() *)
  obj_points : list vec3;                        (* .points() *)
  obj_visual_metadata : list (string * pyval);   (* .visual_metadata().items() *)
  obj_name : option string                       (* .name *)
}.

(** A [CompositeCube]: a block of one or more primitives. *)
Record CompositeCube : Type := {
  comp_faces_head : faces;                       (* .faces[0] *)
  comp_faces_tail : list faces;                  (* .faces[1:] *)
  comp_shape : vec3;                             (* .shape() *)
  comp_visual_metadata : list (string * pyval);  (* .visual_metadata().items() *)
  comp_name : option string;                     (* .name *)
  comp_style : string                            (* .style *)
}.

Definition comp_faces (c : CompositeCube) : list faces :=
  comp_faces_head c :: comp_faces_tail c.

(** ** The change log *)

Inductive SpaceStateChange : Type :=
| Addition (timestep_id : nat) (name : option string)
| Mutation (subject : list (string * list pyval))
           (name : option string) (coordinate : option (list Q))
           (timestep_id : option Z) (scene_id : option Z)
| Transform (transform : vec3) (transform_name : string)
            (name : option string) (coordinate : option (list Q))
            (timestep_id : option Z) (scene_id : option Z)
| Deletion (timestep_id : nat) (name : option string).

(** ** The index

    [brickblock/index.py] is not part of the sources at hand; [SpaceIndex] is
    reconstructed from the description of the temporal index. *)

(** Modelled from the spec: the class [SpaceIndex] of [brickblock/index.py].
    Two parallel logs, one over primitive ids and one over composite ranges;
    every entry is tagged with the time-step and the scene counter at the
    moment of the touch, and the same id or range may be logged again at
    every later touch. *)
Record SpaceIndex : Type := {
  primitive_log : list (nat * nat * nat);
  composite_log : list (slice * nat * nat)
}.

Definition empty_index : SpaceIndex :=
  {| primitive_log := []; composite_log := [] |}.

(** Modelled from the spec: [SpaceIndex.add_primitive_to_index], which records
    the touch of one primitive id. *)
Definition add_primitive_to_index (ix : SpaceIndex) (id timestep_id scene_id : nat)
  : SpaceIndex :=
  {| primitive_log := primitive_log ix ++ [(id, timestep_id, scene_id)];
     composite_log := composite_log ix |}.

(** Modelled from the spec: [SpaceIndex.add_composite_to_index], which records
    the touch of one composite range. *)
Definition add_composite_to_index (ix : SpaceIndex) (ids : slice)
    (timestep_id scene_id : nat) : SpaceIndex :=
  {| primitive_log := primitive_log ix;
     composite_log := composite_log ix ++ [(ids, timestep_id, scene_id)] |}.

(** Modelled from the spec: [SpaceIndex.primitives] and
    [SpaceIndex.composites], the logged ids and ranges in the order of the
    touches. *)
Definition primitives (ix : SpaceIndex) : list nat :=
  (fun e => e.1.1) <$> primitive_log ix.
Definition composites (ix : SpaceIndex) : list slice :=
  (fun e => e.1.1) <$> composite_log ix.

(** Modelled from the spec: [get_primitives_by_timestep] and
    [get_composites_by_timestep], an exact match on the time-step that keeps
    the order of the touches and removes nothing. *)
Definition get_primitives_by_timestep (ix : SpaceIndex) (t : nat) : list nat :=
  (fun e => e.1.1) <$> filter (fun e => e.1.2 = t) (primitive_log ix).
Definition get_composites_by_timestep (ix : SpaceIndex) (t : nat) : list slice :=
  (fun e => e.1.1) <$> filter (fun e => e.1.2 = t) (composite_log ix).

(** Modelled from the spec: [get_primitives_by_scene] and
    [get_composites_by_scene], every touch tagged with the scene, in the order
    of the touches; [Space._select_by_scene] removes the repetitions itself. *)
Definition get_primitives_by_scene (ix : SpaceIndex) (sc : nat) : list nat :=
  (fun e => e.1.1) <$> filter (fun e => e.2 = sc) (primitive_log ix).
Definition get_composites_by_scene (ix : SpaceIndex) (sc : nat) : list slice :=
  (fun e => e.1.1) <$> filter (fun e => e.2 = sc) (composite_log ix).

(** Modelled from the spec: [current_scene_is_valid], which holds when at
    least one touch was recorded since the previous scene boundary, that is in
    scene [expected_num_scenes - 1]. *)
Definition current_scene_is_valid (ix : SpaceIndex) (expected_num_scenes : nat) : bool :=
  bool_decide (get_primitives_by_scene ix (expected_num_scenes - 1) <> [] \/
               get_composites_by_scene ix (expected_num_scenes - 1) <> []).

(** ** The store *)

Record Space : Type := {
  dims : bounds;
  mean : vec3;
  total : vec3;
  num_objs : nat;
  primitive_counter : nat;
  time_step : nat;
  scene_counter : nat;
  cuboid_coordinates : list faces;
  cuboid_shapes : list vec3;
  cuboid_visual_metadata : gmap string (list pyval);
  cuboid_index : SpaceIndex;
  cuboid_names : gmap string (option (list nat) * option (list slice));
  changelog : list SpaceStateChange
}.

(** [Space.__init__]. *)
Definition init : Space := {|
  dims := zero_bounds;
  mean := vzero;
  total := vzero;
  num_objs := 0;
  primitive_counter := 0;
  time_step := 0;
  scene_counter := 0;
  cuboid_coordinates := replicate 10 zero_faces;
  cuboid_shapes := replicate 10 vzero;
  cuboid_visual_metadata := ∅;
  cuboid_index := empty_index;
  cuboid_names := ∅;
  changelog := []
|}.

(** The basis set up by [__init__]: [basis[0, 0] = basis[2, 1] = basis[1, 2] = 1],
    given by its three rows. *)
Definition basis : vec3 * vec3 * vec3 :=
  (V3 1 0 0, V3 0 0 1, V3 0 1 0).

(** [_convert_basis]: [np.dot(coordinate, self.basis)]. *)
Definition _convert_basis (c : vec3) : vec3 :=
  let '(r0, r1, r2) := basis in
  V3 (vx c * vx r0 + vy c * vx r1 + vz c * vx r2)
     (vx c * vy r0 + vy c * vy r1 + vz c * vy r2)
     (vx c * vz r0 + vy c * vz r1 + vz c * vz r2).

(** Field updates of the store. *)
Definition set_dims (v : bounds) (s : Space) : Space :=
  {| dims := v; mean := mean s; total := total s; num_objs := num_objs s;
     primitive_counter := primitive_counter s; time_step := time_step s;
     scene_counter := scene_counter s; cuboid_coordinates := cuboid_coordinates s;
     cuboid_shapes := cuboid_shapes s;
     cuboid_visual_metadata := cuboid_visual_metadata s;
     cuboid_index := cuboid_index s; cuboid_names := cuboid_names s;
     changelog := changelog s |}.
Definition set_mean (v : vec3) (s : Space) : Space :=
  {| dims := dims s; mean := v; total := total s; num_objs := num_objs s;
     primitive_counter := primitive_counter s; time_step := time_step s;
     scene_counter := scene_counter s; cuboid_coordinates := cuboid_coordinates s;
     cuboid_shapes := cuboid_shapes s;
     cuboid_visual_metadata := cuboid_visual_metadata s;
     cuboid_index := cuboid_index s; cuboid_names := cuboid_names s;
     changelog := changelog s |}.
Definition set_total (v : vec3) (s : Space) : Space :=
  {| dims := dims s; mean := mean s; total := v; num_objs := num_objs s;
     primitive_counter := primitive_counter s; time_step := time_step s;
     scene_counter := scene_counter s; cuboid_coordinates := cuboid_coordinates s;
     cuboid_shapes := cuboid_shapes s;
     cuboid_visual_metadata := cuboid_visual_metadata s;
     cuboid_index := cuboid_index s; cuboid_names := cuboid_names s;
     changelog := changelog s |}.
Definition set_num_objs (v : nat) (s : Space) : Space :=
  {| dims := dims s; mean := mean s; total := total s; num_objs := v;
     primitive_counter := primitive_counter s; time_step := time_step s;
     scene_counter := scene_counter s; cuboid_coordinates := cuboid_coordinates s;
     cuboid_shapes := cuboid_shapes s;
     cuboid_visual_metadata := cuboid_visual_metadata s;
     cuboid_index := cuboid_index s; cuboid_names := cuboid_names s;
     changelog := changelog s |}.
Definition set_primitive_counter (v : nat) (s : Space) : Space :=
  {| dims := dims s; mean := mean s; total := total s; num_objs := num_objs s;
     primitive_counter := v; time_step := time_step s;
     scene_counter := scene_counter s; cuboid_coordinates := cuboid_coordinates s;
     cuboid_shapes := cuboid_shapes s;
     cuboid_visual_metadata := cuboid_visual_metadata s;
     cuboid_index := cuboid_index s; cuboid_names := cuboid_names s;
     changelog := changelog s |}.
Definition set_time_step (v : nat) (s : Space) : Space :=
  {| dims := dims s; mean := mean s; total := total s; num_objs := num_objs s;
     primitive_counter := primitive_counter s; time_step := v;
     scene_counter := scene_counter s; cuboid_coordinates := cuboid_coordinates s;
     cuboid_shapes := cuboid_shapes s;
     cuboid_visual_metadata := cuboid_visual_metadata s;
     cuboid_index := cuboid_index s; cuboid_names := cuboid_names s;
     changelog := changelog s |}.
Definition set_scene_counter (v : nat) (s : Space) : Space :=
  {| dims := dims s; mean := mean s; total := total s; num_objs := num_objs s;
     primitive_counter := primitive_counter s; time_step := time_step s;
     scene_counter := v; cuboid_coordinates := cuboid_coordinates s;
     cuboid_shapes := cuboid_shapes s;
     cuboid_visual_metadata := cuboid_visual_metadata s;
     cuboid_index := cuboid_index s; cuboid_names := cuboid_names s;
     changelog := changelog s |}.
Definition set_cuboid_coordinates (v : list faces) (s : Space) : Space :=
  {| dims := dims s; mean := mean s; total := total s; num_objs := num_objs s;
     primitive_counter := primitive_counter s; time_step := time_step s;
     scene_counter := scene_counter s; cuboid_coordinates := v;
     cuboid_shapes := cuboid_shapes s;
     cuboid_visual_metadata := cuboid_visual_metadata s;
     cuboid_index := cuboid_index s; cuboid_names := cuboid_names s;
     changelog := changelog s |}.
Definition set_cuboid_shapes (v : list vec3) (s : Space) : Space :=
  {| dims := dims s; mean := mean s; total := total s; num_objs := num_objs s;
     primitive_counter := primitive_counter s; time_step := time_step s;
     scene_counter := scene_counter s; cuboid_coordinates := cuboid_coordinates s;
     cuboid_shapes := v;
     cuboid_visual_metadata := cuboid_visual_metadata s;
     cuboid_index := cuboid_index s; cuboid_names := cuboid_names s;
     changelog := changelog s |}.
Definition set_cuboid_visual_metadata (v : gmap string (list pyval)) (s : Space) : Space :=
  {| dims := dims s; mean := mean s; total := total s; num_objs := num_objs s;
     primitive_counter := primitive_counter s; time_step := time_step s;
     scene_counter := scene_counter s; cuboid_coordinates := cuboid_coordinates s;
     cuboid_shapes := cuboid_shapes s;
     cuboid_visual_metadata := v;
     cuboid_index := cuboid_index s; cuboid_names := cuboid_names s;
     changelog := changelog s |}.
Definition set_cuboid_index (v : SpaceIndex) (s : Space) : Space :=
  {| dims := dims s; mean := mean s; total := total s; num_objs := num_objs s;
     primitive_counter := primitive_counter s; time_step := time_step s;
     scene_counter := scene_counter s; cuboid_coordinates := cuboid_coordinates s;
     cuboid_shapes := cuboid_shapes s;
     cuboid_visual_metadata := cuboid_visual_metadata s;
     cuboid_index := v; cuboid_names := cuboid_names s;
     changelog := changelog s |}.
Definition set_cuboid_names
    (v : gmap string (option (list nat) * option (list slice))) (s : Space) : Space :=
  {| dims := dims s; mean := mean s; total := total s; num_objs := num_objs s;
     primitive_counter := primitive_counter s; time_step := time_step s;
     scene_counter := scene_counter s; cuboid_coordinates := cuboid_coordinates s;
     cuboid_shapes := cuboid_shapes s;
     cuboid_visual_metadata := cuboid_visual_metadata s;
     cuboid_index := cuboid_index s; cuboid_names := v;
     changelog := changelog s |}.
Definition set_changelog (v : list SpaceStateChange) (s : Space) : Space :=
  {| dims := dims s; mean := mean s; total := total s; num_objs := num_objs s;
     primitive_counter := primitive_counter s; time_step := time_step s;
     scene_counter := scene_counter s; cuboid_coordinates := cuboid_coordinates s;
     cuboid_shapes := cuboid_shapes s;
     cuboid_visual_metadata := cuboid_visual_metadata s;
     cuboid_index := cuboid_index s; cuboid_names := cuboid_names s;
     changelog := v |}.

(** ** Methods as computations

    A method runs on a store and ends with a value or with an exception, and
    with the store it has reached by then. *)

Inductive pyexc : Type :=
| ValueError | KeyError | IndexError | TypeError | NotImplementedError
| Exception
| Diverges.   (* not an exception: the call never returns *)

Inductive result (A : Type) : Type :=
| Ok (a : A)
| Raise (e : pyexc).
Arguments Ok {A} a.
Arguments Raise {A} e.

Definition M (A : Type) : Type := Space -> result A * Space.

Definition ret {A} (a : A) : M A := fun s => (Ok a, s).
Definition raise {A} (e : pyexc) : M A := fun s => (Raise e, s).
Definition bind {A B} (c : M A) (k : A -> M B) : M B :=
  fun s => match c s with
           | (Ok a, s') => k a s'
           | (Raise e, s') => (Raise e, s')
           end.
Definition get : M Space := fun s => (Ok s, s).
Definition modify (f : Space -> Space) : M unit := fun s => (Ok tt, f s).

Notation "'do' x <- c ; k" := (bind c (fun x => k))
  (at level 10, x name, c at level 100, k at level 200,
   format "'[v' 'do'  x  <-  c ; '/' k ']'").
Notation "'do' ' p <- c ; k" := (bind c (fun x => let 'p := x in k))
  (at level 10, p pattern, c at level 100, k at level 200).
Notation "'run' c ; k" := (bind c (fun _ => k))
  (at level 10, c at level 100, k at level 200,
   format "'[v' 'run'  c ; '/' k ']'").

(** [for x in l: body(x)]. *)
Fixpoint for_each {A} (l : list A) (body : A -> M unit) : M unit :=
  match l with
  | [] => ret tt
  | x :: l' => run body x; for_each l' body
  end.

(** A loop that appends one value to a local list at every turn. *)
Fixpoint collect {A B} (l : list A) (body : A -> M B) : M (list B) :=
  match l with
  | [] => ret []
  | x :: l' => do b <- body x; do bs <- collect l' body; ret (b :: bs)
  end.

(** [self.changelog.append(entry)]. *)
Definition changelog_append (entry : SpaceStateChange) : M unit :=
  modify (fun s => set_changelog (changelog s ++ [entry]) s).

(** ** Insertion *)

(** [_add_name]. *)
Definition _add_name (name : option string)
    (object_ids : option (list nat) * option (list slice)) : M unit :=
  match name with
  | None => ret tt
  | Some n =>
      do s <- get;
      if decide (is_Some (cuboid_names s !! n)) then raise Exception
      else match object_ids with
           | (None, None) => raise Exception
           | _ => modify (fun s => set_cuboid_names (<[n := object_ids]> (cuboid_names s)) s)
           end
  end.

(** [_update_bounds]: the rows of [primitive_ids] are reshaped to
    [(N * 6 * 4, 3)], which fails unless the slice lies within the buffer, and
    their extrema are merged into [dims]; the extrema of no row at all are a
    [ValueError]. *)
Definition _update_bounds (primitive_ids : slice) : M unit :=
  do s <- get;
  let rows := get_slice (cuboid_coordinates s) primitive_ids in
  if decide (start primitive_ids <= stop primitive_ids /\
             length rows = stop primitive_ids - start primitive_ids) then
    match rows ≫= faces_points with
    | [] => raise ValueError
    | first :: rest =>
        let given_mins := np_min first rest in
        let given_maxes := np_max first rest in
        run modify (fun s => set_dims (Bounds (vmin (lo (dims s)) given_mins) (hi (dims s))) s);
        modify (fun s => set_dims (Bounds (lo (dims s)) (vmax (hi (dims s)) given_maxes)) s)
    end
  else raise ValueError.

(** The update of [dims] that both insertion paths share: the first object
    sets the box, a later one extends it. *)
Definition insert_extrema (extrema : bounds) : M unit :=
  modify (fun s =>
    if decide (primitive_counter s = 0) then set_dims extrema s
    else set_dims (Bounds (vmin (lo (dims s)) (lo extrema))
                          (vmax (hi (dims s)) (hi extrema))) s).

(** [_add_cuboid_primitive]. *)
Definition _add_cuboid_primitive (cuboid : Cuboid) : M nat :=
  let cuboid_bounding_box := obj_bounding_box cuboid in
  let cuboid_mean := np_mean (obj_points cuboid) in
  run modify (fun s => set_total (vadd (total s) cuboid_mean) s);
  run modify (fun s =>
        set_mean (vdiv (total s) (inject_Z (Z.of_nat (num_objs s + 1)))) s);
  run insert_extrema cuboid_bounding_box;
  (* Update the coordinate data, resizing if necessary. *)
  run modify (fun s =>
        let current_no_of_entries := length (cuboid_coordinates s) in
        if decide (current_no_of_entries <= primitive_counter s) then
          set_cuboid_coordinates
            (np_resize zero_faces (2 * current_no_of_entries) (cuboid_coordinates s)) s
        else s);
  (* self.cuboid_shapes[self.primitive_counter] = cuboid.shape() *)
  do s <- get;
  if decide (length (cuboid_shapes s) <= primitive_counter s) then raise IndexError
  else
  run modify (fun s =>
        set_cuboid_shapes (<[primitive_counter s := obj_shape cuboid]> (cuboid_shapes s)) s);
  (* self.cuboid_coordinates[self.primitive_counter] = cuboid.faces *)
  do s <- get;
  if decide (length (cuboid_coordinates s) <= primitive_counter s) then raise IndexError
  else
  run modify (fun s =>
        set_cuboid_coordinates
          (<[primitive_counter s := obj_faces cuboid]> (cuboid_coordinates s)) s);
  run for_each (obj_visual_metadata cuboid) (fun '(key, value) =>
        modify (fun s =>
          match cuboid_visual_metadata s !! key with
          | Some col =>
              set_cuboid_visual_metadata
                (<[key := col ++ [value]]> (cuboid_visual_metadata s)) s
          | None =>
              set_cuboid_visual_metadata
                (<[key := [value]]> (cuboid_visual_metadata s)) s
          end));
  run modify (fun s =>
        set_cuboid_index
          (add_primitive_to_index (cuboid_index s) (primitive_counter s)
                                  (time_step s) (scene_counter s)) s);
  do s <- get;
  let primitive_id := primitive_counter s in
  run modify (fun s => set_primitive_counter (primitive_counter s + 1) s);
  ret primitive_id.

(** [add_cube]. *)
Definition add_cube (cube : Cuboid) : M unit :=
  do primitive_id <- _add_cuboid_primitive cube;
  run _add_name (obj_name cube) (Some [primitive_id], None);
  run modify (fun s => set_num_objs (num_objs s + 1) s);
  do s <- get;
  run changelog_append (Addition (time_step s) None);
  run modify (fun s => set_time_step (time_step s + 1) s);
  _update_bounds (Slice primitive_id (primitive_id + 1)).

(** [add_cuboid]. *)
Definition add_cuboid (cuboid : Cuboid) : M unit :=
  do primitive_id <- _add_cuboid_primitive cuboid;
  run _add_name (obj_name cuboid) (Some [primitive_id], None);
  run modify (fun s => set_num_objs (num_objs s + 1) s);
  do s <- get;
  run changelog_append (Addition (time_step s) None);
  run modify (fun s => set_time_step (time_step s + 1) s);
  _update_bounds (Slice primitive_id (primitive_id + 1)).

(** [while (2 * current_no_of_entries) < num_cubes: current_no_of_entries *= 2],
    run for at most [fuel] turns. *)
Fixpoint double_until (fuel current_no_of_entries num_cubes : nat) : option nat :=
  if decide (2 * current_no_of_entries < num_cubes) then
    match fuel with
    | 0 => None
    | S fuel' => double_until fuel' (2 * current_no_of_entries) num_cubes
    end
  else Some current_no_of_entries.

(** [_add_cuboid_composite]. *)
Definition _add_cuboid_composite (composite : CompositeCube) : M slice :=
  let num_cubes := length (comp_faces composite) in
  let flattened_faces := comp_faces composite ≫= faces_points in
  run modify (fun s => set_total (vadd (total s) (np_mean flattened_faces)) s);
  run modify (fun s =>
        set_mean (vdiv (total s) (inject_Z (Z.of_nat (num_objs s + 1)))) s);
  (* composite.faces[0][0] and composite.faces[-1][-1] *)
  let first_face := f0 (comp_faces_head composite) in
  let last_face := f5 (List.last (comp_faces composite) (comp_faces_head composite)) in
  let composite_extrema :=
    Bounds (np_min (p0 first_face) (tail (face_points first_face) ++ face_points last_face))
           (np_max (p0 first_face) (tail (face_points first_face) ++ face_points last_face)) in
  run insert_extrema composite_extrema;
  (* Update coordinate array *)
  do s <- get;
  let current_no_of_entries := length (cuboid_coordinates s) in
  run (if decide (current_no_of_entries <= primitive_counter s + num_cubes) then
         match double_until num_cubes current_no_of_entries num_cubes with
         | None => raise Diverges
         | Some current_no_of_entries =>
             run modify (fun s =>
                   set_cuboid_coordinates
                     (np_resize zero_faces (2 * current_no_of_entries) (cuboid_coordinates s)) s);
             modify (fun s =>
                   set_cuboid_shapes
                     (np_resize vzero (2 * current_no_of_entries) (cuboid_shapes s)) s)
         end
       else ret tt);
  do s <- get;
  let base := primitive_counter s in
  let offset := base + num_cubes in
  match np_set_slice (cuboid_coordinates s) (Slice base offset) (comp_faces composite) with
  | None => raise ValueError
  | Some coordinates =>
  run modify (set_cuboid_coordinates coordinates);
  run modify (fun s =>
        set_cuboid_shapes
          (np_fill_slice (cuboid_shapes s) (Slice base offset) (comp_shape composite)) s);
  run for_each (comp_visual_metadata composite) (fun '(key, value) =>
        modify (fun s =>
          match cuboid_visual_metadata s !! key with
          | Some col =>
              set_cuboid_visual_metadata
                (<[key := col ++ replicate num_cubes value]> (cuboid_visual_metadata s)) s
          | None =>
              set_cuboid_visual_metadata
                (<[key := replicate num_cubes value]> (cuboid_visual_metadata s)) s
          end));
  run modify (fun s => set_primitive_counter (primitive_counter s + num_cubes) s);
  let primitive_ids := Slice base offset in
  run modify (fun s =>
        set_cuboid_index
          (add_composite_to_index (cuboid_index s) primitive_ids
                                  (time_step s) (scene_counter s)) s);
  if decide (comp_style composite = "classic") then raise NotImplementedError
  else ret primitive_ids
  end.

(** [add_composite]. *)
Definition add_composite (composite : CompositeCube) : M unit :=
  do composite_id <- _add_cuboid_composite composite;
  run _add_name (comp_name composite) (None, Some [composite_id]);
  run modify (fun s => set_num_objs (num_objs s + 1) s);
  do s <- get;
  run changelog_append (Addition (time_step s) None);
  run modify (fun s => set_time_step (time_step s + 1) s);
  _update_bounds composite_id.

(** ** Selection *)

(** The rows of [range(self.primitive_counter)] whose base vertex equals
    [coordinate]; reading a row beyond the buffer is an [IndexError]. *)
Fixpoint matching_base_vectors (coordinates : list faces) (coordinate : vec3)
    (idxs : list nat) : option (list nat) :=
  match idxs with
  | [] => Some []
  | idx :: idxs' =>
      match coordinates !! idx with
      | None => None
      | Some primitive =>
          rest ← matching_base_vectors coordinates coordinate idxs';
          Some (if array_equal (base_vertex primitive) coordinate
                then idx :: rest else rest)
      end
  end.

(** Modelled from the spec: the two cursors that [next(self.cuboid_index.
    primitives(), None)] and [next(self.cuboid_index.composites(), None)] read
    in [_select_by_coordinate].  A cursor is the part of the log still
    pending: its head is the next pending id (or range), [None] once the log
    is exhausted, and reading it again after a match moves past that entry.
    The loop itself is the one of [_select_by_coordinate]. *)
Fixpoint classify (matching : list nat) (pending_primitives : list nat)
    (pending_composites : list slice) : list nat * list slice :=
  match matching with
  | [] => ([], [])
  | idx :: matching' =>
      let '(found_primitive, pending_primitives') :=
        match pending_primitives with
        | primitive_id :: later =>
            if decide (primitive_id = idx) then ([primitive_id], later)
            else ([], pending_primitives)
        | [] => ([], [])
        end in
      let '(found_composite, pending_composites') :=
        match pending_composites with
        | composite_slice :: later =>
            if decide (start composite_slice = idx) then ([composite_slice], later)
            else ([], pending_composites)
        | [] => ([], [])
        end in
      let '(primitives_to_update, composites_to_update) :=
        classify matching' pending_primitives' pending_composites' in
      (found_primitive ++ primitives_to_update,
       found_composite ++ composites_to_update)
  end.

(** [_select_by_coordinate]; the coordinate is a one-dimensional array of any
    length. *)
Definition _select_by_coordinate (coordinate : list Q) : M (list nat * list slice) :=
  match coordinate with
  | [x; y; z] =>
      let coordinate := _convert_basis (V3 x y z) in
      do s <- get;
      match matching_base_vectors (cuboid_coordinates s) coordinate
                                  (seq 0 (primitive_counter s)) with
      | None => raise IndexError
      | Some matching =>
          ret (classify matching (primitives (cuboid_index s))
                        (composites (cuboid_index s)))
      end
  | _ => raise ValueError
  end.

(** [_select_by_name]. *)
Definition _select_by_name (name : string) : M (list nat * list slice) :=
  do s <- get;
  match cuboid_names s !! name with
  | None => raise ValueError
  | Some (primitive_ids, composite_ids) =>
      ret (default [] primitive_ids, default [] composite_ids)
  end.

(** [_select_by_timestep]. *)
Definition _select_by_timestep (timestep : Z) : M (list nat * list slice) :=
  do s <- get;
  if decide (timestep < 0 \/ timestep > Z.of_nat (time_step s))%Z then raise ValueError
  else ret (get_primitives_by_timestep (cuboid_index s) (Z.to_nat timestep),
            get_composites_by_timestep (cuboid_index s) (Z.to_nat timestep)).

(** The order of slices: that of the pairs [(start, stop)]. *)
Definition slice_le (a b : slice) : Prop :=
  start a < start b \/ (start a = start b /\ stop a <= stop b).

#[global] Instance slice_le_dec : RelDecision slice_le.
Proof. intros a b. unfold slice_le. apply _. Defined.

(** [sorted(list(set(ids)))]. *)
Definition sorted_set (ids : list nat) : list nat :=
  merge_sort le (remove_dups ids).

(** [sorted(list(slice(t[0], t[1]) for t in set([(c.start, c.stop) for c in ids])))]. *)
Definition sorted_slice_set (ids : list slice) : list slice :=
  merge_sort slice_le
    ((fun t : nat * nat => Slice t.1 t.2) <$>
       remove_dups ((fun c_id => (start c_id, stop c_id)) <$> ids)).

(** [_select_by_scene]. *)
Definition _select_by_scene (scene : Z) : M (list nat * list slice) :=
  do s <- get;
  if decide (scene < 0 \/ scene > Z.of_nat (scene_counter s))%Z then raise ValueError
  else
    let primitive_ids := get_primitives_by_scene (cuboid_index s) (Z.to_nat scene) in
    let composite_ids := get_composites_by_scene (cuboid_index s) (Z.to_nat scene) in
    ret (sorted_set primitive_ids, sorted_slice_set composite_ids).

(** The four ways of selecting.  The methods [mutate_by_coordinate],
    [mutate_by_name], [mutate_by_timestep] and [mutate_by_scene] have one
    body, up to the selecting function and the field of the log entry that
    records the selector; so have the four [transform_by_*]. *)
Inductive Selector : Type :=
| ByCoordinate (coordinate : list Q)
| ByName (name : string)
| ByTimestep (timestep : Z)
| ByScene (scene : Z).

Definition select (sel : Selector) : M (list nat * list slice) :=
  match sel with
  | ByCoordinate coordinate => _select_by_coordinate coordinate
  | ByName name => _select_by_name name
  | ByTimestep timestep => _select_by_timestep timestep
  | ByScene scene => _select_by_scene scene
  end.

Definition sel_name (sel : Selector) : option string :=
  match sel with ByName n => Some n | _ => None end.
Definition sel_coordinate (sel : Selector) : option (list Q) :=
  match sel with ByCoordinate c => Some c | _ => None end.
Definition sel_timestep (sel : Selector) : option Z :=
  match sel with ByTimestep t => Some t | _ => None end.
Definition sel_scene (sel : Selector) : option Z :=
  match sel with ByScene sc => Some sc | _ => None end.

(** [len(primitives_to_update) > 0 or len(composites_to_update) > 0]. *)
Definition non_zero_selection (primitive_ids : list nat) (composite_ids : list slice)
  : bool :=
  bool_decide (0 < length primitive_ids) || bool_decide (0 < length composite_ids).

(** ** Mutation *)

(** [self.cuboid_visual_metadata[key][i]]. *)
Definition metadata_get (key : string) (i : nat) : M pyval :=
  do s <- get;
  match cuboid_visual_metadata s !! key with
  | None => raise KeyError
  | Some col =>
      match col !! i with
      | None => raise IndexError
      | Some old_val => ret old_val
      end
  end.

(** [self.cuboid_visual_metadata[key][i] = value]. *)
Definition metadata_set (key : string) (i : nat) (value : pyval) : M unit :=
  do s <- get;
  match cuboid_visual_metadata s !! key with
  | None => raise KeyError
  | Some col =>
      if decide (i < length col) then
        modify (set_cuboid_visual_metadata
                  (<[key := <[i := value]> col]> (cuboid_visual_metadata s)))
      else raise IndexError
  end.

(** [self.cuboid_visual_metadata[key][composite_id] = values]. *)
Definition metadata_set_slice (key : string) (composite_id : slice)
    (values : list pyval) : M unit :=
  do s <- get;
  match cuboid_visual_metadata s !! key with
  | None => raise KeyError
  | Some col =>
      modify (set_cuboid_visual_metadata
                (<[key := list_set_slice col composite_id values]>
                   (cuboid_visual_metadata s)))
  end.

(** The two loops that end [_mutate_by_ids] and [_transform_by_ids]: every
    touched id and range is logged at the current time-step and scene. *)
Definition register_touches (primitive_ids : list nat) (composite_ids : list slice)
  : M unit :=
  run for_each primitive_ids (fun primitive_id =>
        modify (fun s =>
          set_cuboid_index
            (add_primitive_to_index (cuboid_index s) primitive_id
                                    (time_step s) (scene_counter s)) s));
  for_each composite_ids (fun composite_id =>
        modify (fun s =>
          set_cuboid_index
            (add_composite_to_index (cuboid_index s) composite_id
                                    (time_step s) (scene_counter s)) s)).

(** The body of [for primitive_id in primitive_ids] in [_mutate_by_ids]: the
    old value is read, then overwritten. *)
Definition mutate_primitive (key : string) (value : pyval) (primitive_id : nat)
  : M pyval :=
  do old_val <- metadata_get key primitive_id;
  run metadata_set key primitive_id value;
  ret old_val.

(** The body of [for composite_id in composite_ids] in [_mutate_by_ids]: the
    old value of the first member is read, then the whole range is
    overwritten. *)
Definition mutate_composite (key : string) (value : pyval) (composite_id : slice)
  : M pyval :=
  let N := stop composite_id - start composite_id in
  do old_val <- metadata_get key (start composite_id);
  let broadcast_val := replicate N value in
  run metadata_set_slice key composite_id broadcast_val;
  ret old_val.

(** The body of [for key in kwargs.keys()] in [_mutate_by_ids]; it yields
    the item [before_mutation_kwargs[key]]. *)
Definition mutate_property (primitive_ids : list nat) (composite_ids : list slice)
    (item : string * pyval) : M (string * list pyval) :=
  let '(key, value) := item in
  do s <- get;
  if decide (is_Some (cuboid_visual_metadata s !! key)) then
    do of_primitives <- collect primitive_ids (mutate_primitive key value);
    do of_composites <- collect composite_ids (mutate_composite key value);
    ret (key, of_primitives ++ of_composites)
  else raise KeyError.

(** [_mutate_by_ids]; [kwargs] lists the keyword arguments in the order of
    the call. *)
Definition _mutate_by_ids (primitive_ids : list nat) (composite_ids : list slice)
    (kwargs : list (string * pyval)) : M (list (string * list pyval)) :=
  do before_mutation_kwargs <-
    collect kwargs (mutate_property primitive_ids composite_ids);
  run register_touches primitive_ids composite_ids;
  run modify (fun s => set_time_step (time_step s + 1) s);
  ret before_mutation_kwargs.

(** The entry [Mutation(subject=previous_state, <selector>=...)]. *)
Definition mutation_entry (previous_state : list (string * list pyval))
    (sel : Selector) : SpaceStateChange :=
  Mutation previous_state (sel_name sel) (sel_coordinate sel)
           (sel_timestep sel) (sel_scene sel).

(** The body of the four [mutate_by_*]. *)
Definition mutate_by (sel : Selector) (kwargs : list (string * pyval)) : M unit :=
  do '(primitives_to_update, composites_to_update) <- select sel;
  let non_empty_kwargs := bool_decide (0 < length kwargs) in
  if negb (non_zero_selection primitives_to_update composites_to_update
           && non_empty_kwargs)
  then ret tt
  else
    do previous_state <-
      _mutate_by_ids primitives_to_update composites_to_update kwargs;
    changelog_append (mutation_entry previous_state sel).

Definition mutate_by_coordinate (coordinate : list Q) := mutate_by (ByCoordinate coordinate).
Definition mutate_by_name (name : string) := mutate_by (ByName name).
Definition mutate_by_timestep (timestep : Z) := mutate_by (ByTimestep timestep).
Definition mutate_by_scene (scene : Z) := mutate_by (ByScene scene).

(** ** Transforms *)

(** The body of [for primitive_id in primitive_ids] in [_transform_by_ids]. *)
Definition transform_primitive (func : faces -> faces) (primitive_id : nat) : M unit :=
  do s <- get;
  match cuboid_coordinates s !! primitive_id with
  | None => raise IndexError
  | Some cuboid =>
      modify (set_cuboid_coordinates
                (<[primitive_id := func cuboid]> (cuboid_coordinates s)))
  end.

(** The body of [for composite_id in composite_ids] in [_transform_by_ids]. *)
Definition transform_composite (func : faces -> faces) (composite_id : slice) : M unit :=
  do s <- get;
  let composite := get_slice (cuboid_coordinates s) composite_id in
  modify (set_cuboid_coordinates
            (list_set_slice (cuboid_coordinates s) composite_id (func <$> composite))).

(** [_transform_by_ids]. *)
Definition _transform_by_ids (primitive_ids : list nat) (composite_ids : list slice)
    (func : faces -> faces) : M unit :=
  run for_each primitive_ids (transform_primitive func);
  run for_each composite_ids (transform_composite func);
  run register_touches primitive_ids composite_ids;
  modify (fun s => set_time_step (time_step s + 1) s).

(** [sum([a is not None for a in [translate, reflect]]) == 1]. *)
Definition exactly_one_set {A B} (translate : option A) (reflect : option B) : bool :=
  bool_decide (length (option_list translate) + length (option_list reflect) = 1).

(** What the two [if ... is not None] blocks leave in [val], [func] and
    [kwargs]: the second block, when it runs, overwrites the first. *)
Definition transform_bindings (translate reflect : option vec3)
  : option (vec3 * (faces -> faces) * (vec3 * string)) :=
  match reflect with
  | Some reflect =>
      Some (reflect, faces_map (fun obj => vmul obj reflect), (reflect, "reflection"))
  | None =>
      match translate with
      | Some translate =>
          Some (translate, faces_map (fun obj => vadd obj translate),
                (vneg translate, "translation"))
      | None => None
      end
  end.

(** The entry [Transform(<selector>=..., **kwargs)]. *)
Definition transform_entry (kwargs : vec3 * string) (sel : Selector)
  : SpaceStateChange :=
  Transform kwargs.1 kwargs.2 (sel_name sel) (sel_coordinate sel)
            (sel_timestep sel) (sel_scene sel).

(** The body of the four [transform_by_*]. *)
Definition transform_by (sel : Selector) (translate reflect : option vec3) : M unit :=
  do '(primitives_to_update, composites_to_update) <- select sel;
  if negb (exactly_one_set translate reflect) then raise ValueError
  else
    match transform_bindings translate reflect with
    | None => raise Exception   (* not reached: one of the two is set *)
    | Some (val, func, kwargs) =>
        let non_zero_transform := np_any val in
        if negb (non_zero_selection primitives_to_update composites_to_update
                 && non_zero_transform)
        then ret tt
        else
          run changelog_append (transform_entry kwargs sel);
          _transform_by_ids primitives_to_update composites_to_update func
    end.

Definition transform_by_coordinate (coordinate : list Q) := transform_by (ByCoordinate coordinate).
Definition transform_by_name (name : string) := transform_by (ByName name).
Definition transform_by_scene (scene : Z) := transform_by (ByScene scene).

(** How Python binds the keyword arguments of a call of
    [transform_by_coordinate(self, coordinate, translate=None, reflect=None)]:
    a keyword that is not a parameter is a [TypeError], raised before the
    body runs. *)
Fixpoint bind_transform_keywords (keywords : list (string * vec3))
    (translate reflect : option vec3) : option (option vec3 * option vec3) :=
  match keywords with
  | [] => Some (translate, reflect)
  | (key, value) :: keywords' =>
      if decide (key = "translate") then
        bind_transform_keywords keywords' (Some value) reflect
      else if decide (key = "reflect") then
        bind_transform_keywords keywords' translate (Some value)
      else None
  end.

Definition call_transform_by_coordinate (coordinate : list Q)
    (keywords : list (string * vec3)) : M unit :=
  match bind_transform_keywords keywords None None with
  | None => raise TypeError
  | Some (translate, reflect) => transform_by_coordinate coordinate translate reflect
  end.

(** ** Scenes *)

(** [snapshot]. *)
Definition snapshot : M unit :=
  do s <- get;
  let expected_num_scenes := scene_counter s + 1 in
  if current_scene_is_valid (cuboid_index s) expected_num_scenes then
    modify (fun s => set_scene_counter (scene_counter s + 1) s)
  else raise Exception.

(** ** Cloning *)

(** [int(val)] of a float: truncation towards zero. *)
Definition py_int (val : Q) : Q :=
  inject_Z (Z.quot (Qnum val) (Z.pos (Qden val))).

(** One turn of the loop that builds [interleaved_kwargs]: the keyword
    arguments that the [i]-th selected object gets. *)
Definition kwargs_for_id (i : nat) (kwargs : list (string * pyval))
  : M (list (string * pyval)) :=
  collect kwargs (fun '(key, value) =>
    do s <- get;
    if decide (is_Some (cuboid_visual_metadata s !! key)) then
      match value with
      | PyList values =>
          match values !! i with
          | None => raise IndexError
          | Some v => ret (key, v)
          end
      | _ => ret (key, value)
      end
    else raise KeyError).

(** [{key: self.cuboid_visual_metadata[key][i] for key in
    self.cuboid_visual_metadata.keys()}]. *)
Definition metadata_row (i : nat) : M (gmap string pyval) :=
  do s <- get;
  if decide (map_Forall (fun _ (col : list pyval) => is_Some (col !! i))
                        (cuboid_visual_metadata s))
  then ret (omap (fun col : list pyval => col !! i) (cuboid_visual_metadata s))
  else raise IndexError.

Section Clone.

(** The constructors of [brickblock/objects.py], as [clone_by_offset] calls
    them: [Cuboid(base, *shape, **visual_metadata, name=None)] and
    [CompositeCube(base, *shape, **visual_metadata, name=None)]. *)
Variable new_cuboid : vec3 -> vec3 -> gmap string pyval -> Cuboid.
Variable new_composite : vec3 -> vec3 -> gmap string pyval -> CompositeCube.

(** [clone_by_offset]. *)
Definition clone_by_offset (offset : vec3)
    (coordinate : option (list Q)) (name : option string)
    (timestep : option Z) (scene : option Z)
    (kwargs : list (string * pyval)) : M unit :=
  if negb (bool_decide
             (length (option_list coordinate) + length (option_list name) +
              length (option_list timestep) + length (option_list scene) = 1))
  then raise ValueError
  else
  (* the last selector that is set wins; exactly one is *)
  let func : M (list nat * list slice) :=
    match scene, timestep, name, coordinate with
    | Some val, _, _, _ => _select_by_scene val
    | None, Some val, _, _ => _select_by_timestep val
    | None, None, Some val, _ => _select_by_name val
    | None, None, None, Some val => _select_by_coordinate val
    | None, None, None, None => raise Exception   (* not reached *)
    end in
  do '(primitive_ids, composite_ids) <- func;
  if bool_decide (length primitive_ids = 0) && bool_decide (length composite_ids = 0)
  then ret tt
  else
  let total_number_of_ids := length primitive_ids + length composite_ids in
  do interleaved_kwargs <-
    collect (seq 0 total_number_of_ids) (fun i => kwargs_for_id i kwargs);
  do new_primitive_ids <-
    collect (zip primitive_ids interleaved_kwargs) (fun '(primitive, vis_met_data) =>
      do visual_metadata <- metadata_row primitive;
      let visual_metadata := list_to_map vis_met_data ∪ visual_metadata in
      do s <- get;
      match cuboid_coordinates s !! primitive, cuboid_shapes s !! primitive with
      | Some row, Some shape =>
          let transformed_base := _convert_basis (base_vertex row) in
          let cuboid := new_cuboid (vadd transformed_base offset) shape visual_metadata in
          do new_primitive_id <- _add_cuboid_primitive cuboid;
          run modify (fun s => set_num_objs (num_objs s + 1) s);
          ret new_primitive_id
      | _, _ => raise IndexError
      end);
  do new_composite_ids <-
    collect (zip composite_ids interleaved_kwargs) (fun '(composite, vis_met_data) =>
      let start := start composite in
      do visual_metadata <- metadata_row start;
      let visual_metadata := list_to_map vis_met_data ∪ visual_metadata in
      do s <- get;
      match cuboid_coordinates s !! start, cuboid_shapes s !! start with
      | Some row, Some shape =>
          let transformed_base := _convert_basis (base_vertex row) in
          let shape := V3 (py_int (vx shape)) (py_int (vy shape)) (py_int (vz shape)) in
          do new_composite_id <-
            _add_cuboid_composite
              (new_composite (vadd transformed_base offset) shape visual_metadata);
          run modify (fun s => set_num_objs (num_objs s + 1) s);
          ret new_composite_id
      | _, _ => raise IndexError
      end);
  match (match new_primitive_ids with
         | first :: _ => Some first
         | [] => start <$> head new_composite_ids
         end),
        (match new_composite_ids with
         | [] => last new_primitive_ids
         | _ :: _ => (fun c => stop c - 1) <$> last new_composite_ids
         end) with
  | Some min_id, Some max_id =>
      do s <- get;
      run changelog_append (Addition (time_step s) None);
      run modify (fun s => set_time_step (time_step s + 1) s);
      _update_bounds (Slice min_id (max_id + 1))
  | _, _ => raise IndexError
  end.

(** ** Calls of the public methods *)

Inductive call : Type :=
| AddCube (cube : Cuboid)
| AddCuboid (cuboid : Cuboid)
| AddComposite (composite : CompositeCube)
| MutateBy (sel : Selector) (kwargs : list (string * pyval))
| TransformBy (sel : Selector) (translate reflect : option vec3)
| CloneByOffset (offset : vec3) (coordinate : option (list Q))
                (name : option string) (timestep scene : option Z)
                (kwargs : list (string * pyval))
| Snapshot.

Definition run_call (c : call) : M unit :=
  match c with
  | AddCube cube => add_cube cube
  | AddCuboid cuboid => add_cuboid cuboid
  | AddComposite composite => add_composite composite
  | MutateBy sel kwargs => mutate_by sel kwargs
  | TransformBy sel translate reflect => transform_by sel translate reflect
  | CloneByOffset offset coordinate name timestep scene kwargs =>
      clone_by_offset offset coordinate name timestep scene kwargs
  | Snapshot => snapshot
  end.

(** The stores that a program can reach from a new [Space()]: a call that
    raises leaves its store behind, and the program may go on with it. *)
Inductive reachable : Space -> Prop :=
| reachable_init : reachable init
| reachable_call s c r s' :
    reachable s -> run_call c s = (r, s') -> reachable s'.

End Clone.

(** * Properties of the computations: definitions *)

(** [preserves R c]: whatever [c] does, and however it ends, the store it
    leaves is related by [R] to the one it started from. *)
Definition preserves {A} (R : relation Space) (c : M A) : Prop :=
  forall s r s', c s = (r, s') -> R s s'.

(** An [Addition] entry that names nothing; the other entries are not
    concerned. *)
Definition addition_unnamed (entry : SpaceStateChange) : Prop :=
  match entry with
  | Addition _ name => name = None
  | _ => True
  end.

(** The log only grows, and by unnamed additions, mutations and transforms. *)
Definition log_extends (s s' : Space) : Prop :=
  exists entries,
    changelog s' = changelog s ++ entries /\ Forall addition_unnamed entries.

(** The part [f] of the store is left as it is. *)
Definition keeps {X} (f : Space -> X) : relation Space :=
  fun s s' => f s' = f s.

(** Box [b'] contains box [b]. *)
Definition box_extends (b b' : bounds) : Prop :=
  vle (lo b') (lo b) /\ vle (hi b) (hi b').


(** Once a primitive is stored, the box never shrinks. *)
Definition box_grows (s s' : Space) : Prop :=
  primitive_counter s <= primitive_counter s' /\
  (0 < primitive_counter s -> box_extends (dims s) (dims s')).

(** ** Concrete inputs *)

(** The six faces of the box with corner [b] and extents [e], in the order
    in which the tests of the repository lay out a cube. *)
Definition box_faces (b e : vec3) : faces :=
  let pt (i j k : bool) :=
    V3 (if i then vx b + vx e else vx b)%Q
       (if j then vy b + vy e else vy b)%Q
       (if k then vz b + vz e else vz b)%Q in
  let q0 := pt false false false in let q1 := pt false true false in
  let q2 := pt true true false in let q3 := pt true false false in
  let q4 := pt false false true in let q5 := pt false true true in
  let q6 := pt true true true in let q7 := pt true false true in
  Faces (Face q0 q1 q2 q3) (Face q0 q4 q7 q3) (Face q0 q1 q5 q4)
        (Face q3 q7 q6 q2) (Face q1 q5 q6 q2) (Face q4 q5 q6 q7).

(** The visual properties an object has when none is given. *)
Definition default_visual_metadata : list (string * pyval) :=
  [("facecolor", PyNone); ("linewidth", PyFloat (1 # 10));
   ("edgecolor", PyStr "black"); ("alpha", PyFloat 0)].

(** A unit cube stored with base vertex [b]. *)
Definition unit_cube (b : vec3) (name : option string) : Cuboid :=
  {| obj_faces := box_faces b (V3 1 1 1);
     obj_shape := V3 1 1 1;
     obj_bounding_box := Bounds b (vadd b (V3 1 1 1));
     obj_points := [b; vadd b (V3 1 1 1)];
     obj_visual_metadata := default_visual_metadata;
     obj_name := name |}.

(** Stand-ins for the constructors of [brickblock/objects.py]. *)
Definition example_cuboid (base shape : vec3) (visual_metadata : gmap string pyval)
  : Cuboid :=
  {| obj_faces := box_faces (_convert_basis base) (_convert_basis shape);
     obj_shape := shape;
     obj_bounding_box :=
       Bounds (_convert_basis base) (vadd (_convert_basis base) (_convert_basis shape));
     obj_points :=
       [_convert_basis base; vadd (_convert_basis base) (_convert_basis shape)];
     obj_visual_metadata := map_to_list visual_metadata;
     obj_name := None |}.
Definition example_composite (base shape : vec3) (visual_metadata : gmap string pyval)
  : CompositeCube :=
  {| comp_faces_head := box_faces (_convert_basis base) (V3 1 1 1);
     comp_faces_tail := [];
     comp_shape := shape;
     comp_visual_metadata := map_to_list visual_metadata;
     comp_name := None;
     comp_style := "default" |}.

(** The store after a call, and how the call ended. *)
Definition after {A} (c : M A) (s : Space) : Space := (c s).2.
Definition outcome {A} (c : M A) (s : Space) : result A := (c s).1.

(** A store that holds one unit cube at the origin, named ["foo"]. *)
Definition foo_cube : Cuboid := unit_cube vzero (Some "foo").
Definition foo_store : Space := after (add_cube foo_cube) init.

(** [n] calls of [add_cube], each with a new unit cube at the origin. *)
Fixpoint add_cubes (n : nat) : M unit :=
  match n with
  | 0 => ret tt
  | S n' => run add_cubes n'; add_cube (unit_cube vzero None)
  end.

(** A composite of [S n] unit cubes in a row along the first axis. *)
Definition row_composite (n : nat) : CompositeCube :=
  {| comp_faces_head := box_faces vzero (V3 1 1 1);
     comp_faces_tail :=
       (fun i => box_faces (V3 (inject_Z (Z.of_nat (S i))) 0 0) (V3 1 1 1)) <$> seq 0 n;
     comp_shape := V3 (inject_Z (Z.of_nat (S n))) 1 1;
     comp_visual_metadata := default_visual_metadata;
     comp_name := None;
     comp_style := "default" |}.

(** A store that holds two unit cubes: id 0 at the origin, named ["foo"],
    and id 1 with base vertex [(5, 5, 5)]. *)
Definition two_cube_store : Space :=
  after (add_cube (unit_cube (V3 5 5 5) None)) foo_store.

(** The store [foo_store] after a composite was added and the cube and the
    composite were then mutated three times, all in scene 0. *)
Definition touched_store : Space :=
  after (run add_composite (row_composite 1);
         run mutate_by_name "foo" [("alpha", PyFloat 1)];
         run mutate_by_timestep 1 [("alpha", PyFloat (1 # 2))];
         run mutate_by_scene 0 [("facecolor", PyStr "red")];
         mutate_by_scene 0 [("facecolor", PyStr "blue")]) foo_store.


(** The cube ["foo"] moved by [(5, 0, 0)]. *)
Definition move_foo : M unit := transform_by_name "foo" (Some (V3 5 0 0)) None.

(** ** Selections as the ranges they write *)

(** The range that holds the primitive [id] alone. *)
Definition unit_slice (id : nat) : slice := Slice id (id + 1).

(** The rows that a mutation or a transform of a selection writes, in the
    order of the writes: the selected primitives, then the selected ranges. *)
Definition selection_slices (primitive_ids : list nat) (composite_ids : list slice)
  : list slice :=
  (unit_slice <$> primitive_ids) ++ composite_ids.

(** Row [i] lies in the range [c]. *)
Definition covers (c : slice) (i : nat) : Prop := start c <= i < stop c.

#[global] Instance covers_dec c i : Decision (covers c i).
Proof. unfold covers. apply _. Defined.

(** How many of the writes of a selection reach row [i]. *)
Definition touches (primitive_ids : list nat) (composite_ids : list slice) (i : nat)
  : nat :=
  length (filter (fun c => covers c i) (selection_slices primitive_ids composite_ids)).

(** No range starts inside a range that is written before it: the first
    member of every selected object is still as it was when its turn comes. *)
Fixpoint heads_unwritten (writes : list slice) : Prop :=
  match writes with
  | [] => True
  | c :: writes' =>
      Forall (fun c' => ~ covers c (start c')) writes' /\ heads_unwritten writes'
  end.

(** What the log entry of a mutation holds for one keyword argument
    [item = (key, value)], given the property columns [before] and [after]
    the call: the item [entry] of the logged [subject] has the same key and
    lists the values that the column held before the call, for each
    selected primitive its own and for each selected range only that of
    the first member; the column after the call holds the new value on every
    row of the selection and is as before elsewhere. *)
Definition logs_prior (primitive_ids : list nat) (composite_ids : list slice)
    (before after : gmap string (list pyval))
    (item : string * pyval) (entry : string * list pyval) : Prop :=
  entry.1 = item.1 /\
  exists col col',
    before !! item.1 = Some col /\ after !! item.1 = Some col' /\
    Forall2 (fun i old => col !! i = Some old)
            (primitive_ids ++ (start <$> composite_ids)) entry.2 /\
    (forall i, col' !! i = if decide (touches primitive_ids composite_ids i = 0)
                           then col !! i else Some item.2).

(** The cube ["foo"] painted red. *)
Definition paint_foo : M unit := mutate_by_name "foo" [("facecolor", PyStr "red")].

(** [raises_only P c]: when [c] ends with an exception, it is one of [P]. *)
Definition raises_only {A} (P : pyexc -> Prop) (c : M A) : Prop :=
  forall s r s', c s = (r, s') ->
    match r with
    | Ok _ => True
    | Raise e => P e
    end.

(** ** Further properties of the store *)

(** Nothing goes back: the old log is a prefix of the new one and no counter
    is lower than it was. *)
Definition never_back (s s' : Space) : Prop :=
  (exists entries, changelog s' = changelog s ++ entries) /\
  primitive_counter s <= primitive_counter s' /\
  num_objs s <= num_objs s' /\
  time_step s <= time_step s' /\
  scene_counter s <= scene_counter s'.

(** Every name that was bound is still bound to the same ids. *)
Definition names_kept (s s' : Space) : Prop :=
  forall name ids, cuboid_names s !! name = Some ids ->
                   cuboid_names s' !! name = Some ids.

(** The rows of the primitives stored so far are as they were. *)
Definition rows_kept (s s' : Space) : Prop :=
  primitive_counter s <= primitive_counter s' /\
  forall i row, i < primitive_counter s ->
    cuboid_coordinates s !! i = Some row -> cuboid_coordinates s' !! i = Some row.

(** The parts of the store that a mutation has no business with. *)
Definition beside_metadata (s : Space) :=
  (dims s, mean s, total s, num_objs s, primitive_counter s, scene_counter s,
   cuboid_coordinates s, cuboid_shapes s, cuboid_names s).

(** The parts of the store that a transform has no business with. *)
Definition beside_coordinates (s : Space) :=
  (dims s, mean s, total s, num_objs s, primitive_counter s, scene_counter s,
   cuboid_shapes s, cuboid_visual_metadata s, cuboid_names s).


(** One call either leaves the log and the time-step alone or appends one
    entry and moves the time-step by one; an [Addition] that is appended
    holds the time-step at which the call began. *)
Definition one_step (s s' : Space) : Prop :=
  (changelog s' = changelog s /\ time_step s' = time_step s) \/
  (exists entry, changelog s' = changelog s ++ [entry] /\
                 time_step s' = time_step s + 1 /\
                 forall timestep_id name,
                   entry = Addition timestep_id name -> timestep_id = time_step s).

(** The time-step counts the entries of the log, and every [Addition] holds
    its own position in the log. *)
Definition log_in_step (s : Space) : Prop :=
  time_step s = length (changelog s) /\
  forall i timestep_id name,
    changelog s !! i = Some (Addition timestep_id name) -> timestep_id = i.

(** A composite of two unit cubes in a row, named ["bar"]. *)
Definition bar_composite : CompositeCube :=
  {| comp_faces_head := comp_faces_head (row_composite 1);
     comp_faces_tail := comp_faces_tail (row_composite 1);
     comp_shape := comp_shape (row_composite 1);
     comp_visual_metadata := comp_visual_metadata (row_composite 1);
     comp_name := Some "bar";
     comp_style := comp_style (row_composite 1) |}.

(** [np.array_equal] on two one-dimensional arrays: same length, equal
    components. *)
Fixpoint array_equal_1d (a b : list Q) : bool :=
  match a, b with
  | [], [] => true
  | x :: a', y :: b' => Qeq_bool x y && array_equal_1d a' b'
  | _, _ => false
  end.

(** [Transform.__eq__(self, __value)] for [self] a [Transform] entry.  The
    first comparison reads [__value.transform]: a value that is no [Transform]
    has no such attribute and the comparison raises an [AttributeError],
    which is [None] here.  [np.array_equal] of an array and of [None] is
    [False]. *)
Definition __eq__ (self __value : SpaceStateChange) : option bool :=
  match self, __value with
  | Transform transform transform_name name coordinate timestep_id scene_id,
    Transform transform' transform_name' name' coordinate' timestep_id' scene_id' =>
      let vals_except_coordinate_match :=
        array_equal transform transform'
        && bool_decide (transform_name = transform_name')
        && bool_decide (name = name')
        && bool_decide (timestep_id = timestep_id')
        && bool_decide (scene_id = scene_id') in
      let coordinates_match :=
        match coordinate with
        | Some coordinate =>
            match coordinate' with
            | Some coordinate' => array_equal_1d coordinate coordinate'
            | None => false
            end
        | None => bool_decide (coordinate' = None)
        end in
      Some (vals_except_coordinate_match && coordinates_match)
  | _, _ => None
  end.

(** Whether an entry of the log is a [Transform]. *)
Definition is_transform (entry : SpaceStateChange) : Prop :=
  match entry with Transform _ _ _ _ _ _ => True | _ => False end.

(** The buffer of rows is not empty and holds every primitive counted. *)
Definition capacity_ok (s : Space) : Prop :=
  0 < length (cuboid_coordinates s) /\
  primitive_counter s <= length (cuboid_coordinates s).

(** [maintains I P c]: from a store in [I], [c] ends in a store in [I], and
    when it ends with an exception, it is one of [P]. *)
Definition maintains {A} (I : Space -> Prop) (P : pyexc -> Prop) (c : M A) : Prop :=
  forall s r s', I s -> c s = (r, s') ->
    I s' /\ match r with
            | Ok _ => True
            | Raise e => P e
            end.

(** What a mutation with the keywords [named] may do to the property
    columns: no key comes or goes, and a column that is not named is as it
    was. *)
Definition columns_kept (named : list string) (s s' : Space) : Prop :=
  forall key,
    (is_Some (cuboid_visual_metadata s' !! key)
     <-> is_Some (cuboid_visual_metadata s !! key)) /\
    (key ∉ named -> cuboid_visual_metadata s' !! key = cuboid_visual_metadata s !! key).

(** ** A selection that holds one primitive twice *)

(** The store after a second [add_cube] of the name ["foo"]: the call raises
    in [_add_name], after the primitive 1 was stored and logged in the index
    at time-step 1. *)
Definition retried_store : Space := after (add_cube foo_cube) foo_store.

(** Then primitive 1 is mutated by its time-step, which logs it in the index
    at time-step 1 once more: the time-step 1 now selects [[1; 1]]. *)
Definition twice_touched_store : Space :=
  after (mutate_by_timestep 1 [("alpha", PyFloat 1)]) retried_store.

(** The two calls that are tried on that selection. *)
Definition fade_again : M unit := mutate_by_timestep 1 [("alpha", PyFloat (1 # 2))].

(** * Slices of lists *)

Lemma clip_bounds sl n : clip_lo sl n <= clip_hi sl n <= n.
Proof. unfold clip_hi, clip_lo. lia. Qed.

Lemma clip_within sl n :
  start sl <= stop sl -> stop sl <= n ->
  clip_lo sl n = start sl /\ clip_hi sl n = stop sl.
Proof. unfold clip_hi, clip_lo. lia. Qed.

Lemma length_list_set_slice {A} (a : list A) sl vals :
  length vals = clip_hi sl (length a) - clip_lo sl (length a) ->
  length (list_set_slice a sl vals) = length a.
Proof.
  intros Hlen. unfold list_set_slice.
  pose proof (clip_bounds sl (length a)).
  rewrite !length_app, length_take, length_drop. lia.
Qed.

Lemma get_list_set_slice {A} (a : list A) sl vals :
  length vals = clip_hi sl (length a) - clip_lo sl (length a) ->
  get_slice (list_set_slice a sl vals) sl = vals.
Proof.
  intros Hlen. unfold get_slice. rewrite length_list_set_slice by done.
  unfold list_set_slice. pose proof (clip_bounds sl (length a)).
  rewrite drop_app_length' by (rewrite length_take; lia).
  rewrite <- Hlen. apply take_app_length.
Qed.

Lemma length_get_slice {A} (a : list A) sl :
  length (get_slice a sl) = clip_hi sl (length a) - clip_lo sl (length a).
Proof.
  unfold get_slice. pose proof (clip_bounds sl (length a)).
  rewrite length_take, length_drop. lia.
Qed.

(** A row of the slice, by its index in the list. *)
Lemma lookup_get_slice {A} (a : list A) sl i :
  clip_lo sl (length a) <= i < clip_hi sl (length a) ->
  get_slice a sl !! (i - clip_lo sl (length a)) = a !! i.
Proof.
  intros Hi. unfold get_slice.
  rewrite lookup_take_lt by lia. rewrite lookup_drop. f_equal. lia.
Qed.

(** What [col[sl] = vals] leaves at index [i], for [vals] as long as the
    clipped range. *)
Lemma lookup_list_set_slice {A} (a : list A) sl vals i :
  length vals = clip_hi sl (length a) - clip_lo sl (length a) ->
  list_set_slice a sl vals !! i =
    if decide (clip_lo sl (length a) <= i < clip_hi sl (length a))
    then vals !! (i - clip_lo sl (length a))
    else a !! i.
Proof.
  intros Hlen. unfold list_set_slice. pose proof (clip_bounds sl (length a)).
  destruct (decide (i < clip_lo sl (length a))) as [Hlt|Hge].
  - rewrite lookup_app_l by (rewrite length_take; lia).
    rewrite lookup_take_lt by done. case_decide; [lia|done].
  - rewrite lookup_app_r by (rewrite length_take; lia).
    rewrite length_take, Nat.min_l by lia.
    destruct (decide (i < clip_hi sl (length a))) as [Hlt|Hge'].
    + rewrite lookup_app_l by lia. case_decide; [done|lia].
    + rewrite lookup_app_r by lia. rewrite lookup_drop.
      case_decide; [lia|]. f_equal. lia.
Qed.



(** Python list: what [col[c] = [value] * (c.stop - c.start)] leaves at index
    [i], when the range starts inside the list; the list grows when the range
    ends beyond it. *)
Lemma lookup_list_write {A} (col : list A) c value i :
  start c < length col ->
  list_set_slice col c (replicate (stop c - start c) value) !! i
    = if decide (start c <= i < stop c) then Some value else col !! i.
Proof.
  intros Hstart. unfold list_set_slice.
  assert (Hlo : clip_lo c (length col) = start c) by (unfold clip_lo; lia).
  rewrite Hlo.
  destruct (decide (i < start c)) as [Hlt|Hge].
  - rewrite lookup_app_l by (rewrite length_take; lia).
    rewrite lookup_take_lt by done. case_decide; [lia|done].
  - rewrite lookup_app_r by (rewrite length_take; lia).
    rewrite length_take, Nat.min_l by lia.
    destruct (decide (i < stop c)) as [Hlt|Hge'].
    + rewrite lookup_app_l by (rewrite length_replicate; lia).
      rewrite lookup_replicate_2 by lia. case_decide; [done|lia].
    + rewrite lookup_app_r by (rewrite length_replicate; lia).
      rewrite length_replicate, lookup_drop. case_decide; [lia|].
      unfold clip_hi. rewrite Hlo.
      destruct (decide (stop c <= length col)).
      * f_equal. lia.
      * rewrite !lookup_ge_None_2 by lia. done.
Qed.

(** The doubling loop of [_add_cuboid_composite] ends within [num_cubes]
    turns as soon as the buffer has a row. *)
Lemma double_until_ends fuel current_no_of_entries num_cubes :
  0 < current_no_of_entries ->
  num_cubes - current_no_of_entries <= fuel ->
  is_Some (double_until fuel current_no_of_entries num_cubes).
Proof.
  revert current_no_of_entries.
  induction fuel as [|fuel IH]; intros cur Hpos Hfuel; simpl.
  - case_decide; [lia|eauto].
  - case_decide; [|eauto]. apply IH; lia.
Qed.

(** A resize to a larger capacity keeps every row where it was. *)
Lemma np_resize_lookup {A} (zero : A) n (a : list A) i :
  i < length a -> length a <= n -> np_resize zero n a !! i = a !! i.
Proof.
  intros Hi Hn. unfold np_resize. rewrite take_ge by done.
  by rewrite lookup_app_l.
Qed.

Lemma length_np_resize {A} (zero : A) n (a : list A) :
  length (np_resize zero n a) = n.
Proof.
  unfold np_resize. rewrite length_app, length_take, length_replicate. lia.
Qed.

(** * Reasoning about computations *)

(** The field updates unfold under [simpl]. *)
Arguments set_dims v s /.
Arguments set_mean v s /.
Arguments set_total v s /.
Arguments set_num_objs v s /.
Arguments set_primitive_counter v s /.
Arguments set_time_step v s /.
Arguments set_scene_counter v s /.
Arguments set_cuboid_coordinates v s /.
Arguments set_cuboid_shapes v s /.
Arguments set_cuboid_visual_metadata v s /.
Arguments set_cuboid_index v s /.
Arguments set_cuboid_names v s /.
Arguments set_changelog v s /.

Lemma bind_inv {A B} (c : M A) (k : A -> M B) s r s' :
  bind c k s = (r, s') ->
  (exists a s1, c s = (Ok a, s1) /\ k a s1 = (r, s')) \/
  (exists e, c s = (Raise e, s') /\ r = Raise e).
Proof.
  unfold bind. destruct (c s) as [[a|e] s1]; intros H.
  - left. eauto.
  - right. inversion H; subst. eauto.
Qed.

Lemma bind_ok_inv {A B} (c : M A) (k : A -> M B) s b s' :
  bind c k s = (Ok b, s') ->
  exists a s1, c s = (Ok a, s1) /\ k a s1 = (Ok b, s').
Proof.
  intros H. apply bind_inv in H as [(a & s1 & H1 & H2)|(e & _ & H2)]; [eauto|discriminate].
Qed.


Section Preserves.
Context (R : relation Space) `{!PreOrder R}.

Lemma preserves_ret {A} (a : A) : preserves R (ret a).
Proof. intros s r s' H. inversion H; subst. reflexivity. Qed.

Lemma preserves_raise {A} e : preserves R (raise (A := A) e).
Proof. intros s r s' H. inversion H; subst. reflexivity. Qed.

Lemma preserves_get : preserves R get.
Proof. intros s r s' H. inversion H; subst. reflexivity. Qed.

Lemma preserves_modify f : (forall s, R s (f s)) -> preserves R (modify f).
Proof. intros Hf s r s' H. inversion H; subst. apply Hf. Qed.

Lemma preserves_bind {A B} (c : M A) (k : A -> M B) :
  preserves R c -> (forall a, preserves R (k a)) -> preserves R (bind c k).
Proof.
  intros Hc Hk s r s' H.
  apply bind_inv in H as [(a & s1 & H1 & H2)|(e & H1 & _)].
  - transitivity s1; [eapply Hc | eapply Hk]; eauto.
  - eapply Hc; eauto.
Qed.

Lemma preserves_for_each {A} (l : list A) body :
  (forall x, preserves R (body x)) -> preserves R (for_each l body).
Proof.
  intros Hb. induction l as [|x l IH]; simpl.
  - apply preserves_ret.
  - apply preserves_bind; auto.
Qed.

Lemma preserves_collect {A B} (l : list A) (body : A -> M B) :
  (forall x, preserves R (body x)) -> preserves R (collect l body).
Proof.
  intros Hb. induction l as [|x l IH]; simpl.
  - apply preserves_ret.
  - apply preserves_bind; [auto|]. intros b.
    apply preserves_bind; [auto|]. intros bs. apply preserves_ret.
Qed.
End Preserves.

Create HintDb pres discriminated.

Ltac head_of t :=
  lazymatch t with
  | ?f _ => head_of f
  | _ => t
  end.

(** One step of a proof of [preserves R c] that follows the shape of [c];
    [tac] proves [R s (f s)] for the updates [modify f]. *)
Ltac pres_step tac :=
  lazymatch goal with
  | |- preserves _ (ret _) => apply preserves_ret; apply _
  | |- preserves _ (raise _) => apply preserves_raise; apply _
  | |- preserves _ get => apply preserves_get; apply _
  | |- preserves _ (bind _ _) => apply preserves_bind; [apply _ | | intros ?]
  | |- preserves _ (modify _) => apply preserves_modify; intros ?; tac
  | |- preserves _ (changelog_append _) =>
      unfold changelog_append; apply preserves_modify; intros ?; tac
  | |- preserves _ (for_each _ _) => apply preserves_for_each; [apply _ | intros ?]
  | |- preserves _ (collect _ _) => apply preserves_collect; [apply _ | intros ?]
  | |- preserves _ (match ?x with _ => _ end) => destruct x
  | |- preserves _ ?c =>
      first [ solve [auto with pres]
            | let h := head_of c in progress unfold h ]
  end.
Ltac pres tac := cbv zeta; repeat (pres_step tac; cbv beta zeta).


#[local] Instance keeps_preorder {X} (f : Space -> X) : PreOrder (keeps f).
Proof. split; unfold keeps; [intros s | intros s1 s2 s3]; congruence. Qed.

(** An update that does not touch the part kept. *)
Ltac keeps_update := unfold keeps; repeat case_match; reflexivity.
Ltac keeps_frame := pres keeps_update.

(** Inversion of a computation that is known to have ended. *)
Ltac minv :=
  repeat match goal with
  | H : bind _ _ _ = (Ok _, _) |- _ =>
      let H1 := fresh "Hrun" in
      apply bind_ok_inv in H as (? & ? & H1 & H)
  | H : ret _ _ = _ |- _ => inversion H; subst; clear H
  | H : get _ = _ |- _ => inversion H; subst; clear H
  | H : raise _ _ = (Ok _, _) |- _ => discriminate H
  | H : (if ?b then _ else _) _ = (_, _) |- _ => destruct b
  | H : (match ?x with _ => _ end) _ = (_, _) |- _ => destruct x eqn:?
  end.

Ltac inv_modify :=
  repeat match goal with
  | H : modify _ _ = _ |- _ => inversion H; subst; clear H
  end.

(** Every step [c s = (r, s')] among the hypotheses that keeps the part [F]
    of the store is replaced by [keeps F s s']. *)
Ltac chain F :=
  repeat match goal with
  | H : ?c ?s = (_, ?s') |- _ =>
      let K := fresh "K" in
      assert (K : keeps F s s')
        by (refine ((_ : preserves (keeps F) c) _ _ _ H); keeps_frame);
      clear H
  end.

(** * The change log only grows by unnamed additions *)

#[local] Instance log_extends_preorder : PreOrder log_extends.
Proof.
  split.
  - intros s. exists []. split; [by rewrite app_nil_r | constructor].
  - intros s1 s2 s3 (l1 & H1 & F1) (l2 & H2 & F2). exists (l1 ++ l2). split.
    + by rewrite H2, H1, app_assoc.
    + by apply Forall_app.
Qed.

(** An update that leaves the log alone, or appends one entry to it. *)
Ltac log_update :=
  unfold log_extends; repeat case_match; simpl;
  first [ exists []; split; [by rewrite app_nil_r | constructor]
        | eexists [_]; split; [reflexivity | by repeat constructor] ].
Ltac log_frame := pres log_update.

Lemma _add_name_log name ids : preserves log_extends (_add_name name ids).
Proof. unfold _add_name. log_frame. Qed.
Lemma _update_bounds_log ids : preserves log_extends (_update_bounds ids).
Proof. unfold _update_bounds. log_frame. Qed.
Lemma insert_extrema_log e : preserves log_extends (insert_extrema e).
Proof. unfold insert_extrema. log_frame. Qed.
#[export] Hint Resolve _add_name_log _update_bounds_log insert_extrema_log : pres.
Lemma _add_cuboid_primitive_log c : preserves log_extends (_add_cuboid_primitive c).
Proof. unfold _add_cuboid_primitive. log_frame. Qed.
Lemma _add_cuboid_composite_log c : preserves log_extends (_add_cuboid_composite c).
Proof. unfold _add_cuboid_composite. log_frame. Qed.
#[export] Hint Resolve _add_cuboid_primitive_log _add_cuboid_composite_log : pres.
Lemma add_cube_log c : preserves log_extends (add_cube c).
Proof. unfold add_cube. log_frame. Qed.
Lemma add_cuboid_log c : preserves log_extends (add_cuboid c).
Proof. unfold add_cuboid. log_frame. Qed.
Lemma add_composite_log c : preserves log_extends (add_composite c).
Proof. unfold add_composite. log_frame. Qed.
Lemma select_log sel : preserves log_extends (select sel).
Proof.
  destruct sel; simpl;
    unfold _select_by_coordinate, _select_by_name, _select_by_timestep, _select_by_scene;
    log_frame.
Qed.
Lemma metadata_get_log k i : preserves log_extends (metadata_get k i).
Proof. unfold metadata_get. log_frame. Qed.
Lemma metadata_set_log k i v : preserves log_extends (metadata_set k i v).
Proof. unfold metadata_set. log_frame. Qed.
Lemma metadata_set_slice_log k i v : preserves log_extends (metadata_set_slice k i v).
Proof. unfold metadata_set_slice. log_frame. Qed.
Lemma register_touches_log ps cs : preserves log_extends (register_touches ps cs).
Proof. unfold register_touches. log_frame. Qed.
#[export] Hint Resolve select_log metadata_get_log metadata_set_log
  metadata_set_slice_log register_touches_log : pres.
Lemma _mutate_by_ids_log ps cs kw : preserves log_extends (_mutate_by_ids ps cs kw).
Proof. unfold _mutate_by_ids. log_frame. Qed.
Lemma _transform_by_ids_log ps cs f : preserves log_extends (_transform_by_ids ps cs f).
Proof. unfold _transform_by_ids. log_frame. Qed.
#[export] Hint Resolve _mutate_by_ids_log _transform_by_ids_log : pres.
Lemma mutate_by_log sel kw : preserves log_extends (mutate_by sel kw).
Proof. unfold mutate_by. log_frame. Qed.
Lemma transform_by_log sel t r : preserves log_extends (transform_by sel t r).
Proof. unfold transform_by. log_frame. Qed.
Lemma snapshot_log : preserves log_extends snapshot.
Proof. unfold snapshot. log_frame. Qed.
Lemma kwargs_for_id_log i kw : preserves log_extends (kwargs_for_id i kw).
Proof. unfold kwargs_for_id. log_frame. Qed.
Lemma metadata_row_log i : preserves log_extends (metadata_row i).
Proof. unfold metadata_row. log_frame. Qed.
#[export] Hint Resolve kwargs_for_id_log metadata_row_log : pres.
Lemma clone_by_offset_log nc ncomp off c n t sc kw :
  preserves log_extends (clone_by_offset nc ncomp off c n t sc kw).
Proof.
  unfold clone_by_offset. log_frame;
    unfold _select_by_coordinate, _select_by_name, _select_by_timestep, _select_by_scene;
    log_frame.
Qed.
Lemma run_call_log nc ncomp c : preserves log_extends (run_call nc ncomp c).
Proof.
  destruct c; simpl; auto using add_cube_log, add_cuboid_log, add_composite_log,
    mutate_by_log, transform_by_log, clone_by_offset_log, snapshot_log.
Qed.

(** * What an insertion stores *)

Lemma _add_cuboid_primitive_frame c :
  preserves (keeps (fun s => (cuboid_names s, changelog s, time_step s,
                              scene_counter s, num_objs s)))
            (_add_cuboid_primitive c).
Proof. keeps_frame. Qed.

Lemma _add_cuboid_primitive_id c s id s' :
  _add_cuboid_primitive c s = (Ok id, s') ->
  id = primitive_counter s /\ primitive_counter s' = primitive_counter s + 1.
Proof.
  unfold _add_cuboid_primitive. cbv zeta. intros H. minv.
  match goal with
  | H : modify (fun s => set_primitive_counter _ s) _ = _ |- _ =>
      inversion H; subst; clear H
  end.
  chain primitive_counter. unfold keeps in *. simpl. split; congruence.
Qed.

Lemma _update_bounds_frame ids :
  preserves (keeps (fun s => (cuboid_names s, changelog s, time_step s)))
            (_update_bounds ids).
Proof. keeps_frame. Qed.

Lemma add_cube_named cube n s s' :
  add_cube cube s = (Ok tt, s') -> obj_name cube = Some n ->
  cuboid_names s' !! n = Some (Some [primitive_counter s], None) /\
  changelog s' = changelog s ++ [Addition (time_step s) None].
Proof.
  unfold add_cube. intros H Hn. rewrite Hn in H.
  apply bind_ok_inv in H as (id & s1 & Hadd & H).
  apply bind_ok_inv in H as ([] & s2 & Hname & H).
  apply _add_cuboid_primitive_id in Hadd as Hid. destruct Hid as [-> _].
  apply _add_cuboid_primitive_frame in Hadd. unfold keeps in Hadd.
  unfold _add_name in Hname. minv.
  repeat match goal with
         | H : modify _ _ = _ |- _ => inversion H; subst; clear H
         end.
  match goal with
  | H : _update_bounds _ _ = _ |- _ => apply _update_bounds_frame in H
  end.
  unfold keeps, changelog_append, modify in *. simpl in *.
  simplify_eq. simpl in *. split.
  - match goal with H : cuboid_names s' = _ |- _ => rewrite H end.
    apply lookup_insert_eq.
  - congruence.
Qed.

Lemma reachable_log new_cuboid new_composite s :
  reachable new_cuboid new_composite s -> Forall addition_unnamed (changelog s).
Proof.
  induction 1 as [|s c r s' _ IH Hcall].
  - constructor.
  - apply run_call_log in Hcall as (entries & -> & Hentries).
    by apply Forall_app.
Qed.

(** * Where the code departs from its description *)

(** C1.  A call that fails validation can leave the store changed.  Adding a
    second cube under a name that is taken raises only after the cube was
    stored: the primitive counter has moved from 1 to 2 and the cube is in
    the index, though no log entry was appended.  Mutating with a known key
    followed by an unknown one raises [KeyError] after the known property was
    overwritten. *)
Theorem failed_validation_leaves_changes :
  (outcome (add_cube foo_cube) foo_store = Raise Exception /\
   primitive_counter foo_store = 1 /\
   primitive_counter (after (add_cube foo_cube) foo_store) = 2 /\
   primitives (cuboid_index (after (add_cube foo_cube) foo_store)) = [0; 1] /\
   changelog (after (add_cube foo_cube) foo_store) = changelog foo_store) /\
  (outcome (mutate_by_name "foo" [("alpha", PyFloat 1); ("bogus", PyNone)]) foo_store
     = Raise KeyError /\
   cuboid_visual_metadata foo_store !! "alpha" = Some [PyFloat 0] /\
   cuboid_visual_metadata
     (after (mutate_by_name "foo" [("alpha", PyFloat 1); ("bogus", PyNone)]) foo_store)
     !! "alpha" = Some [PyFloat 1]).
Proof. vm_compute. repeat split. Qed.

(** C3.  Appending can fail for want of capacity.  [_add_cuboid_primitive]
    doubles the coordinate buffer but never the shape buffer: ten cubes fit,
    the eleventh finds the coordinate buffer grown to 20 rows and the shape
    buffer still at 10, and the write of its shape is an [IndexError].
    [_add_cuboid_composite] doubles until the capacity holds the composite
    alone: with 9 primitives stored, a composite of 15 gets 20 rows where 24
    are needed, and the write of its block is a [ValueError]. *)
Theorem append_fails_for_capacity :
  (outcome (add_cubes 10) init = Ok tt /\
   outcome (add_cubes 11) init = Raise IndexError /\
   primitive_counter (after (add_cubes 11) init) = 10 /\
   length (cuboid_coordinates (after (add_cubes 11) init)) = 20 /\
   length (cuboid_shapes (after (add_cubes 11) init)) = 10) /\
  (outcome (add_cubes 9) init = Ok tt /\
   outcome (add_composite (row_composite 14)) (after (add_cubes 9) init)
     = Raise ValueError /\
   length (cuboid_coordinates
             (after (add_composite (row_composite 14)) (after (add_cubes 9) init))) = 20).
Proof. vm_compute. repeat split. Qed.

(** C4.  A reflection by the all-ones vector is the identity, yet the call is
    not a no-op: [np.any] of the vector is true, so an entry is logged and
    the time-step advances. *)
Theorem identity_reflection_is_logged :
  outcome (transform_by_name "foo" None (Some (V3 1 1 1))) foo_store = Ok tt /\
  cuboid_coordinates (after (transform_by_name "foo" None (Some (V3 1 1 1))) foo_store)
    !! 0 = cuboid_coordinates foo_store !! 0 /\
  changelog (after (transform_by_name "foo" None (Some (V3 1 1 1))) foo_store)
    = changelog foo_store ++
      [Transform (V3 1 1 1) "reflection" (Some "foo") None None None] /\
  time_step (after (transform_by_name "foo" None (Some (V3 1 1 1))) foo_store)
    = time_step foo_store + 1.
Proof. vm_compute. repeat split. Qed.

(** C6.  Selection by coordinate misses a primitive whose base vertex matches.
    With cube 0 at the origin and cube 1 at [(5, 5, 5)], both standalone,
    the coordinate [(5, 5, 5)] matches row 1, but the pending primitive id is
    0 and no match ever moves the cursor past it: nothing is selected. *)
Theorem select_by_coordinate_misses_later_primitive :
  primitives (cuboid_index two_cube_store) = [0; 1] /\
  composites (cuboid_index two_cube_store) = [] /\
  (base_vertex <$> cuboid_coordinates two_cube_store !! 1)
    = Some (_convert_basis (V3 5 5 5)) /\
  _select_by_coordinate [5; 5; 5]%Q two_cube_store = (Ok ([], []), two_cube_store) /\
  _select_by_coordinate [0; 0; 0]%Q two_cube_store = (Ok ([0], []), two_cube_store).
Proof. vm_compute. repeat split. Qed.

(** C8.  The transforms take [translate] and [reflect] only.  A call with
    the keyword [scale] is refused when the arguments are bound, whatever the
    vector and the selection, and exactly one of the two kinds that exist
    must be given. *)
Theorem scale_is_not_a_transform :
  outcome (call_transform_by_coordinate [0; 0; 0]%Q [("scale", V3 2 2 2)]) foo_store
    = Raise TypeError /\
  outcome (call_transform_by_coordinate [0; 0; 0]%Q [("translate", V3 2 2 2)]) foo_store
    = Ok tt /\
  outcome (call_transform_by_coordinate [0; 0; 0]%Q []) foo_store = Raise ValueError /\
  outcome (call_transform_by_coordinate [0; 0; 0]%Q
             [("translate", V3 2 2 2); ("reflect", V3 1 (-1) 1)]) foo_store
    = Raise ValueError.
Proof. vm_compute. repeat split. Qed.

(** C7.  A mutation can log a value it has just written as the prior value.
    After a second [add_cube] of the name ["foo"] has failed and primitive 1
    was mutated by its time-step, the time-step 1 selects primitive 1 twice.
    A mutation of that selection reads the property of primitive 1, writes
    it, then reads it again: the entry logs [[1; 1/2]] for a column that
    held [1] for primitive 1 before the call, and [1/2] is the value of the
    call itself.  [_mutate_by_ids] returns the same when it is given the ids
    [[1; 1]] directly. *)
Theorem duplicate_selection_logs_new_value :
  outcome (add_cube foo_cube) foo_store = Raise Exception /\
  outcome (mutate_by_timestep 1 [("alpha", PyFloat 1)]) retried_store = Ok tt /\
  outcome (select (ByTimestep 1)) twice_touched_store = Ok ([1; 1], []) /\
  cuboid_visual_metadata twice_touched_store !! "alpha"
    = Some [PyFloat 0; PyFloat 1] /\
  outcome fade_again twice_touched_store = Ok tt /\
  last (changelog (after fade_again twice_touched_store))
    = Some (Mutation [("alpha", [PyFloat 1; PyFloat (1 # 2)])]
                     None None (Some 1%Z) None) /\
  outcome (_mutate_by_ids [1; 1] [] [("alpha", PyFloat (1 # 2))]) twice_touched_store
    = Ok [("alpha", [PyFloat 1; PyFloat (1 # 2)])].
Proof. vm_compute. repeat split. Qed.

(** * Selection by scene *)

Lemma sorted_set_NoDup ids : NoDup (sorted_set ids).
Proof.
  unfold sorted_set. rewrite merge_sort_Permutation. apply NoDup_remove_dups.
Qed.

Lemma elem_of_sorted_set id ids : id ∈ sorted_set ids <-> id ∈ ids.
Proof.
  unfold sorted_set. rewrite merge_sort_Permutation. apply elem_of_remove_dups.
Qed.

#[local] Instance slice_of_pair_inj : Inj (=) (=) (fun t : nat * nat => Slice t.1 t.2).
Proof. intros [a b] [c d] H. simpl in H. congruence. Qed.

Lemma sorted_slice_set_NoDup ids : NoDup (sorted_slice_set ids).
Proof.
  unfold sorted_slice_set. rewrite merge_sort_Permutation.
  apply (NoDup_fmap_2 _). apply NoDup_remove_dups.
Qed.

Lemma elem_of_sorted_slice_set c ids : c ∈ sorted_slice_set ids <-> c ∈ ids.
Proof.
  unfold sorted_slice_set. rewrite merge_sort_Permutation.
  rewrite list_elem_of_fmap. split.
  - intros ([a b] & -> & Hin). rewrite elem_of_remove_dups, list_elem_of_fmap in Hin.
    destruct Hin as ([a' b'] & Heq & Hin). simpl in *. congruence.
  - intros Hin. exists (start c, stop c). split; [by destruct c|].
    rewrite elem_of_remove_dups, list_elem_of_fmap. eauto.
Qed.

(** C9.  Selection by scene returns every primitive id and every composite
    range at most once, however often it was touched in the scene; it
    returns exactly the ids and ranges that the index holds for the scene,
    and it leaves the store as it is. *)
Theorem select_by_scene_reports_once scene s primitive_ids composite_ids s' :
  _select_by_scene scene s = (Ok (primitive_ids, composite_ids), s') ->
  NoDup primitive_ids /\ NoDup composite_ids /\
  (forall id, id ∈ primitive_ids <->
              id ∈ get_primitives_by_scene (cuboid_index s) (Z.to_nat scene)) /\
  (forall c, c ∈ composite_ids <->
             c ∈ get_composites_by_scene (cuboid_index s) (Z.to_nat scene)) /\
  s' = s.
Proof.
  unfold _select_by_scene. intros H. minv.
  auto using sorted_set_NoDup, sorted_slice_set_NoDup,
    elem_of_sorted_set, elem_of_sorted_slice_set.
Qed.

(** In [touched_store] the cube and the composite were touched four times
    each in scene 0, and each is reported once. *)
Lemma select_by_scene_reports_once_witness :
  get_primitives_by_scene (cuboid_index touched_store) 0 = [0; 0; 0; 0] /\
  get_composites_by_scene (cuboid_index touched_store) 0
    = [Slice 1 3; Slice 1 3; Slice 1 3; Slice 1 3] /\
  _select_by_scene 0 touched_store = (Ok ([0], [Slice 1 3]), touched_store) /\
  NoDup [0] /\ NoDup [Slice 1 3].
Proof.
  assert (H : _select_by_scene 0 touched_store = (Ok ([0], [Slice 1 3]), touched_store))
    by (vm_compute; reflexivity).
  split; [vm_compute; reflexivity|]. split; [vm_compute; reflexivity|].
  split; [exact H|].
  destruct (select_by_scene_reports_once 0 touched_store [0] [Slice 1 3] touched_store H)
    as (Hp & Hc & _).
  exact (conj Hp Hc).
Defined.

(** * The bounding box *)

Lemma vle_refl a : vle a a.
Proof. unfold vle. auto using Qle_refl. Qed.

Lemma vle_trans a b c : vle a b -> vle b c -> vle a c.
Proof.
  unfold vle. intros (?&?&?) (?&?&?).
  repeat split; eapply Qle_trans; eauto.
Qed.





Lemma box_extends_refl b : box_extends b b.
Proof. split; apply vle_refl. Qed.

Lemma box_extends_trans a b c : box_extends a b -> box_extends b c -> box_extends a c.
Proof. intros [? ?] [? ?]. split; eauto using vle_trans. Qed.

#[local] Instance box_grows_preorder : PreOrder box_grows.
Proof.
  split.
  - intros s. split; [lia | auto using box_extends_refl].
  - intros s1 s2 s3 [H1 B1] [H2 B2]. split; [lia|].
    intros Hpos. eapply box_extends_trans; [auto | apply B2; lia].
Qed.








Lemma _add_cuboid_primitive_row c s id s' :
  _add_cuboid_primitive c s = (Ok id, s') ->
  cuboid_coordinates s' !! id = Some (obj_faces c).
Proof.
  unfold _add_cuboid_primitive. cbv zeta. intros H. minv.
  repeat match goal with
  | H : modify (fun s => set_primitive_counter _ s) _ = _ |- _ =>
      inversion H; subst; clear H
  | H : modify (fun s => set_cuboid_coordinates (<[_ := _]> _) s) _ = _ |- _ =>
      inversion H; subst; clear H
  end.
  chain (fun s => (primitive_counter s, cuboid_coordinates s)).
  unfold keeps in *. simpl in *. simplify_eq.
  repeat match goal with H : cuboid_coordinates _ = _ |- _ => rewrite H end.
  repeat match goal with H : primitive_counter _ = _ |- _ => rewrite H end.
  apply list_lookup_insert_eq.
  match goal with
  | Hn : ¬ length (cuboid_coordinates ?a) <= primitive_counter ?a,
    H1 : primitive_counter ?a = primitive_counter ?b,
    H2 : cuboid_coordinates ?a = cuboid_coordinates ?b |- _ =>
      rewrite H1, H2 in Hn
  end.
  lia.
Qed.

Lemma _add_cuboid_composite_rows c s ids s' :
  _add_cuboid_composite c s = (Ok ids, s') ->
  exists a, np_set_slice a ids (comp_faces c) = Some (cuboid_coordinates s').
Proof.
  unfold _add_cuboid_composite. cbv zeta. intros H. minv.
  all: repeat match goal with
  | H : modify (set_cuboid_coordinates _) _ = _ |- _ =>
      inversion H; subst; clear H
  end.
  all: chain cuboid_coordinates; unfold keeps in *; simpl in *.
  all: eexists; repeat match goal with H : cuboid_coordinates _ = _ |- _ => rewrite H end.
  all: eassumption.
Qed.



Lemma _update_bounds_ok_nonempty ids s s' :
  _update_bounds ids s = (Ok tt, s') -> get_slice (cuboid_coordinates s) ids <> [].
Proof.
  unfold _update_bounds. cbv zeta. intros H Hnil. minv.
  match goal with H : _ ≫= _ = _ :: _ |- _ => rewrite Hnil in H; discriminate H end.
Qed.





(** * Transforms and their log entries *)

Lemma for_each_app {A} (l1 l2 : list A) body s :
  for_each (l1 ++ l2) body s = bind (for_each l1 body) (fun _ => for_each l2 body) s.
Proof.
  revert s. induction l1 as [|x l1 IH]; intros s; simpl; [done|].
  unfold bind in *. destruct (body x s) as [[[]|e] s1]; [|done].
  apply IH.
Qed.

Lemma select_readonly sel : preserves (keeps (fun s => s)) (select sel).
Proof. destruct sel; keeps_frame. Qed.

Lemma covers_clipped {A} (l : list A) c i :
  i < length l ->
  (clip_lo c (length l) <= i < clip_hi c (length l)) <-> covers c i.
Proof. unfold covers, clip_hi, clip_lo. lia. Qed.

Lemma unit_slice_write {A} (l : list A) p x y :
  l !! p = Some x ->
  get_slice l (unit_slice p) = [x] /\ list_set_slice l (unit_slice p) [y] = <[p := y]> l.
Proof.
  intros Hx. pose proof (lookup_lt_Some _ _ _ Hx) as Hlt.
  destruct (clip_within (unit_slice p) (length l)) as [Hlo Hhi]; simpl; [lia..|].
  simpl in Hlo, Hhi. split.
  - unfold get_slice. rewrite Hlo, Hhi.
    replace (p + 1 - p) with 1 by lia.
    rewrite (drop_S _ _ _ Hx). done.
  - unfold list_set_slice. rewrite Hlo, Hhi.
    rewrite <- (take_drop_middle _ _ _ Hx) at 3.
    rewrite insert_app_r_alt by (rewrite length_take; lia).
    rewrite length_take, Nat.min_l, Nat.sub_diag by lia. simpl.
    by replace (p + 1) with (S p) by lia.
Qed.

Lemma transform_primitive_as_composite func p s s' :
  transform_primitive func p s = (Ok tt, s') ->
  transform_composite func (unit_slice p) s = (Ok tt, s').
Proof.
  unfold transform_primitive, transform_composite. cbv zeta. intros H. minv.
  match goal with H : _ !! p = Some _ |- _ =>
    destruct (unit_slice_write _ _ _ (func f) H) as [Hget Hset] end.
  unfold bind, get. rewrite Hget. simpl. rewrite Hset. done.
Qed.

Lemma for_each_transform_primitives func ps s s' :
  for_each ps (transform_primitive func) s = (Ok tt, s') ->
  for_each (unit_slice <$> ps) (transform_composite func) s = (Ok tt, s').
Proof.
  revert s. induction ps as [|p ps IH]; intros s H; simpl in *; [done|].
  apply bind_ok_inv in H as ([] & s1 & H1 & H2).
  apply transform_primitive_as_composite in H1.
  unfold bind. rewrite H1. auto.
Qed.

Lemma iter_fmap_succ {A} (f : A -> A) n (o : option A) :
  Nat.iter n f <$> (f <$> o) = Nat.iter (S n) f <$> o.
Proof. destruct o; simpl; [|done]. f_equal. symmetry. apply Nat.iter_succ_r. Qed.

(** A run of range transforms applies [func] to every row once for each
    range that covers it, and touches nothing but the coordinates. *)
Lemma for_each_transform_composites func ws s s' :
  for_each ws (transform_composite func) s = (Ok tt, s') ->
  (forall i, cuboid_coordinates s' !! i
             = Nat.iter (length (filter (fun c => covers c i) ws)) func
                 <$> cuboid_coordinates s !! i).
Proof.
  revert s. induction ws as [|c ws IH]; intros s H i; simpl in H.
  - inversion H; subst. simpl. by destruct (_ !! i).
  - apply bind_ok_inv in H as ([] & s1 & H1 & H2).
    rewrite (IH _ H2 i). clear IH H2.
    unfold transform_composite in H1. cbv zeta in H1. minv.
    inversion H1; subst; clear H1. simpl.
    rewrite lookup_list_set_slice
      by (rewrite length_fmap; apply length_get_slice).
    rewrite filter_cons.
    destruct (decide (i < length (cuboid_coordinates x0))) as [Hlt|Hge].
    + pose proof (covers_clipped (cuboid_coordinates x0) c i Hlt) as Hcov.
      case_decide as Hin; case_decide as Hc; try tauto.
      rewrite list_lookup_fmap, lookup_get_slice by done.
      simpl length. apply iter_fmap_succ.
    + pose proof (clip_bounds c (length (cuboid_coordinates x0))).
      case_decide; [lia|].
      rewrite (lookup_ge_None_2 (cuboid_coordinates x0) i) by lia. done.
Qed.

Lemma _transform_by_ids_rows primitive_ids composite_ids func s s' :
  _transform_by_ids primitive_ids composite_ids func s = (Ok tt, s') ->
  forall i, cuboid_coordinates s' !! i
            = Nat.iter (touches primitive_ids composite_ids i) func
                <$> cuboid_coordinates s !! i.
Proof.
  unfold _transform_by_ids. intros H i.
  apply bind_ok_inv in H as ([] & s1 & H1 & H).
  apply bind_ok_inv in H as ([] & s2 & H2 & H).
  apply for_each_transform_primitives in H1.
  assert (Hws : for_each (selection_slices primitive_ids composite_ids)
                  (transform_composite func) s = (Ok tt, s2)).
  { unfold selection_slices. rewrite for_each_app. unfold bind. by rewrite H1. }
  apply for_each_transform_composites with (i := i) in Hws.
  minv. chain cuboid_coordinates. unfold keeps in *. unfold touches.
  congruence.
Qed.

Lemma _transform_by_ids_keeps_log ps cs func :
  preserves (keeps changelog) (_transform_by_ids ps cs func).
Proof. keeps_frame. Qed.

(** What a transform that changed the log has done. *)
Lemma transform_by_effect sel translate reflect s s' :
  transform_by sel translate reflect s = (Ok tt, s') ->
  changelog s' <> changelog s ->
  exists primitive_ids composite_ids val func kwargs,
    select sel s = (Ok (primitive_ids, composite_ids), s) /\
    transform_bindings translate reflect = Some (val, func, kwargs) /\
    exactly_one_set translate reflect = true /\
    changelog s' = changelog s ++ [transform_entry kwargs sel] /\
    forall i, cuboid_coordinates s' !! i
              = Nat.iter (touches primitive_ids composite_ids i) func
                  <$> cuboid_coordinates s !! i.
Proof.
  unfold transform_by. intros H Hlog.
  apply bind_ok_inv in H as ([ps cs] & s1 & Hsel & H).
  pose proof (select_readonly _ _ _ _ Hsel) as Heq. unfold keeps in Heq. subst s1.
  destruct (exactly_one_set translate reflect) eqn:Hone; simpl in H; [|discriminate].
  destruct (transform_bindings translate reflect) as [[[val func] kwargs]|] eqn:Hb;
    [|discriminate].
  destruct (negb _) eqn:Hnoop in H.
  { inversion H; subst. done. }
  apply bind_ok_inv in H as ([] & s2 & Happ & H).
  inversion Happ; subst; clear Happ.
  exists ps, cs, val, func, kwargs. split; [done|]. split; [done|]. split; [done|].
  split.
  - apply _transform_by_ids_keeps_log in H. unfold keeps in H. by rewrite H.
  - intros i. by rewrite (_transform_by_ids_rows _ _ _ _ _ H i).
Qed.




(** * Mutations and their log entries *)

Lemma collect_app {A B} (l1 l2 : list A) (body : A -> M B) s :
  collect (l1 ++ l2) body s
  = bind (collect l1 body)
      (fun bs1 => bind (collect l2 body) (fun bs2 => ret (bs1 ++ bs2))) s.
Proof.
  unfold bind, ret.
  revert s. induction l1 as [|x l1 IH]; intros s; simpl.
  - unfold bind, ret. by destruct (collect l2 body s) as [[?|?] ?].
  - unfold bind, ret. destruct (body x s) as [[b|e] s1]; [|done].
    rewrite IH. destruct (collect l1 body s1) as [[bs1|e] s2]; [|done].
    by destruct (collect l2 body s2) as [[?|?] ?].
Qed.

(** One write of a mutation: the value read and the store left. *)
Lemma mutate_composite_run key value c s old s' :
  mutate_composite key value c s = (Ok old, s') ->
  exists col,
    cuboid_visual_metadata s !! key = Some col /\
    col !! start c = Some old /\
    s' = set_cuboid_visual_metadata
           (<[key := list_set_slice col c (replicate (stop c - start c) value)]>
              (cuboid_visual_metadata s)) s.
Proof.
  unfold mutate_composite, metadata_get, metadata_set_slice. cbv zeta. intros H.
  minv. inv_modify. simplify_eq. eauto.
Qed.

Lemma mutate_primitive_as_composite key value p s old s' :
  mutate_primitive key value p s = (Ok old, s') ->
  mutate_composite key value (unit_slice p) s = (Ok old, s').
Proof.
  unfold mutate_primitive, mutate_composite, metadata_get, metadata_set,
    metadata_set_slice. cbv zeta. intros H.
  minv. inv_modify. simplify_eq.
  match goal with H : ?col !! p = Some _ |- _ =>
    destruct (unit_slice_write _ _ _ value H) as [_ Hset] end.
  unfold bind, get, ret. simpl.
  repeat match goal with H : _ !! _ = Some _ |- _ => rewrite H end.
  simpl. replace (p + 1 - p) with 1 by lia. simpl. rewrite Hset. done.
Qed.

Lemma collect_mutate_primitives key value ps s olds s' :
  collect ps (mutate_primitive key value) s = (Ok olds, s') ->
  collect (unit_slice <$> ps) (mutate_composite key value) s = (Ok olds, s').
Proof.
  revert s olds s'. induction ps as [|p ps IH]; intros s olds s' H; [done|].
  simpl in H.
  apply bind_ok_inv in H as (old & s1 & H1 & H).
  apply bind_ok_inv in H as (olds' & s2 & H2 & H).
  apply mutate_primitive_as_composite in H1. apply IH in H2.
  rewrite fmap_cons. cbn [collect]. unfold bind. rewrite H1, H2. done.
Qed.

Lemma Forall2_impl_Forall {A B} (P P' : A -> B -> Prop) (Q : A -> Prop) l k :
  Forall2 P l k -> Forall Q l -> (forall x y, P x y -> Q x -> P' x y) ->
  Forall2 P' l k.
Proof.
  intros H. induction H as [|x y l k Hxy H IH]; intros HQ Himp; [constructor|].
  inversion HQ; subst. constructor; eauto.
Qed.

Lemma set_metadata_twice key col1 col' s :
  set_cuboid_visual_metadata
    (<[key := col']>
       (cuboid_visual_metadata
          (set_cuboid_visual_metadata (<[key := col1]> (cuboid_visual_metadata s)) s)))
    (set_cuboid_visual_metadata (<[key := col1]> (cuboid_visual_metadata s)) s)
  = set_cuboid_visual_metadata (<[key := col']> (cuboid_visual_metadata s)) s.
Proof. destruct s. simpl. f_equal. apply insert_insert_eq. Qed.

(** A run of writes under one key: the column it leaves holds the new value
    on every row that some write covers and is as before elsewhere, and the
    value read for a range whose first row no earlier write covered is the
    one the column held at the start. *)
Lemma collect_mutate_composites key value ws s olds s' col :
  collect ws (mutate_composite key value) s = (Ok olds, s') ->
  cuboid_visual_metadata s !! key = Some col ->
  exists col',
    s' = set_cuboid_visual_metadata (<[key := col']> (cuboid_visual_metadata s)) s /\
    (forall i, col' !! i
               = if decide (Exists (fun c => covers c i) ws) then Some value
                 else col !! i) /\
    (heads_unwritten ws -> Forall2 (fun c old => col !! start c = Some old) ws olds).
Proof.
  revert s olds s' col. induction ws as [|c ws IH]; intros s olds s' col H Hcol.
  - inversion H; subst. exists col. split; [|split].
    + destruct s'. simpl in *. f_equal. symmetry. by apply insert_id.
    + intros i. case_decide as HE; [by apply Exists_nil in HE|done].
    + constructor.
  - simpl in H.
    apply bind_ok_inv in H as (old & s1 & H1 & H).
    apply bind_ok_inv in H as (olds' & s2 & H2 & H).
    inversion H; subst; clear H.
    apply mutate_composite_run in H1 as (col0 & Hcol0 & Hold & ->).
    rewrite Hcol in Hcol0. simplify_eq.
    pose proof (lookup_lt_Some _ _ _ Hold) as Hstart.
    eapply IH in H2 as (col' & -> & Hlook & Holds);
      [|simpl; apply lookup_insert_eq].
    exists col'. split; [apply set_metadata_twice|]. split.
    + intros i. rewrite Hlook, lookup_list_write by done.
      unfold covers. repeat case_decide; try done.
      * exfalso. match goal with H : ¬ Exists _ (_ :: _) |- _ => apply H end.
        by apply Exists_cons_tl.
      * exfalso. match goal with H : ¬ Exists _ (_ :: _) |- _ => apply H end.
        by apply Exists_cons_hd.
      * match goal with H : Exists _ (_ :: _) |- _ =>
          apply Exists_cons in H as [?|?] end; done.
    + intros [Hheads Hrest]. constructor; [done|].
      eapply Forall2_impl_Forall; [by apply Holds | exact Hheads |].
      intros c' old' Hc' Hnot. simpl in Hc'.
      rewrite lookup_list_write in Hc' by done.
      unfold covers in Hnot. by case_decide.
Qed.

Lemma filter_length_zero {A} (P : A -> Prop) `{!forall x, Decision (P x)} (l : list A) :
  length (filter P l) = 0 <-> ~ Exists P l.
Proof.
  induction l as [|x l IH]; simpl.
  - split; [intros _ HE; by apply Exists_nil in HE | done].
  - rewrite filter_cons, Exists_cons. case_decide; simpl; [|tauto].
    split; [lia | tauto].
Qed.

Lemma start_selection_slices ps cs :
  start <$> selection_slices ps cs = ps ++ (start <$> cs).
Proof.
  unfold selection_slices. rewrite fmap_app, <- list_fmap_compose. f_equal.
  induction ps as [|p ps IH]; simpl; [done|]. by f_equal.
Qed.

(** One turn of the loop over the keyword arguments. *)
Lemma mutate_property_run ps cs key value s entry s' :
  mutate_property ps cs (key, value) s = (Ok entry, s') ->
  heads_unwritten (selection_slices ps cs) ->
  exists col col' olds,
    entry = (key, olds) /\
    cuboid_visual_metadata s !! key = Some col /\
    s' = set_cuboid_visual_metadata (<[key := col']> (cuboid_visual_metadata s)) s /\
    Forall2 (fun i old => col !! i = Some old) (ps ++ (start <$> cs)) olds /\
    (forall i, col' !! i = if decide (touches ps cs i = 0) then col !! i
                           else Some value).
Proof.
  unfold mutate_property. intros H Hheads.
  apply bind_ok_inv in H as (s0 & s1 & Hget & H). inversion Hget; subst; clear Hget.
  case_decide as Hkey; [|discriminate]. destruct Hkey as [col Hcol].
  apply bind_ok_inv in H as (of_p & s2 & Hp & H).
  apply bind_ok_inv in H as (of_c & s3 & Hc & H).
  inversion H; subst; clear H.
  apply collect_mutate_primitives in Hp.
  assert (Hall : collect (selection_slices ps cs) (mutate_composite key value) s1
                 = (Ok (of_p ++ of_c), s')).
  { unfold selection_slices. rewrite collect_app. unfold bind. by rewrite Hp, Hc. }
  destruct (collect_mutate_composites _ _ _ _ _ _ _ Hall Hcol)
    as (col' & -> & Hlook & Holds).
  exists col, col', (of_p ++ of_c). split; [done|]. split; [done|]. split; [done|].
  split.
  - rewrite <- start_selection_slices. apply Forall2_fmap_l. by apply Holds.
  - intros i. rewrite Hlook. unfold touches.
    pose proof (filter_length_zero (fun c => covers c i) (selection_slices ps cs)).
    repeat case_decide; tauto.
Qed.

Lemma collect_mutate_properties ps cs kwargs s subject s' :
  collect kwargs (mutate_property ps cs) s = (Ok subject, s') ->
  NoDup kwargs.*1 ->
  heads_unwritten (selection_slices ps cs) ->
  (forall k, k ∉ kwargs.*1 ->
             cuboid_visual_metadata s' !! k = cuboid_visual_metadata s !! k) /\
  Forall2 (logs_prior ps cs (cuboid_visual_metadata s) (cuboid_visual_metadata s'))
          kwargs subject.
Proof.
  intros H Hnodup Hheads. revert s subject s' H Hnodup.
  induction kwargs as [|[key value] kwargs IH]; intros s subject s' H Hnodup.
  - inversion H; subst. split; [done|constructor].
  - simpl in H.
    apply bind_ok_inv in H as (entry & s1 & H1 & H).
    apply bind_ok_inv in H as (subject' & s2 & H2 & H).
    inversion H; subst; clear H.
    apply NoDup_cons in Hnodup as [Hkey Hnodup].
    destruct (mutate_property_run _ _ _ _ _ _ _ H1 Hheads)
      as (col & col' & olds & -> & Hcol & -> & Holds & Hlook).
    destruct (IH _ _ _ H2 Hnodup) as [Hother Hrest]. simpl in Hother, Hrest.
    split.
    + intros k Hk. rewrite fmap_cons in Hk. apply not_elem_of_cons in Hk as [Hne Hk].
      rewrite Hother by done. by apply lookup_insert_ne.
    + constructor.
      * split; [done|]. exists col, col'. simpl.
        split; [done|]. split; [|done].
        rewrite Hother by done. apply lookup_insert_eq.
      * eapply (Forall2_impl_Forall _ _ (fun kv => kv.1 <> key)); [exact Hrest | |].
        { apply Forall_forall. intros kv Hkv Heq. apply Hkey.
          apply list_elem_of_fmap. eauto. }
        intros kv e (He & c0 & c1 & Hb & Ha & Hold & Hl) Hne.
        split; [done|]. exists c0, c1. split; [|done].
        by rewrite lookup_insert_ne in Hb.
Qed.

Lemma register_touches_keeps ps cs :
  preserves (keeps (fun s => (cuboid_visual_metadata s, changelog s)))
            (register_touches ps cs).
Proof. keeps_frame. Qed.

Lemma collect_mutate_keeps_log ps cs kwargs :
  preserves (keeps changelog) (collect kwargs (mutate_property ps cs)).
Proof. keeps_frame. Qed.

(** X30.  When the keyword arguments have distinct keys and no selected
    object starts inside one selected before it (so no id is selected
    twice), a mutation that takes effect appends one [Mutation] entry whose
    subject lists, key by key and in the order of the keyword arguments, the
    values held before the call: for each selected primitive its own value,
    then for each selected range the value of its first member only, while
    the new value is written on every row of the selection. *)
Theorem mutation_logs_prior_values sel kwargs s s' primitive_ids composite_ids :
  mutate_by sel kwargs s = (Ok tt, s') ->
  changelog s' <> changelog s ->
  NoDup kwargs.*1 ->
  select sel s = (Ok (primitive_ids, composite_ids), s) ->
  heads_unwritten (selection_slices primitive_ids composite_ids) ->
  exists subject,
    changelog s' = changelog s ++
      [Mutation subject (sel_name sel) (sel_coordinate sel)
                (sel_timestep sel) (sel_scene sel)] /\
    Forall2 (logs_prior primitive_ids composite_ids
               (cuboid_visual_metadata s) (cuboid_visual_metadata s'))
            kwargs subject.
Proof.
  unfold mutate_by. intros H Hlog Hnodup Hsel Hheads.
  apply bind_ok_inv in H as ([ps cs] & s1 & Hsel' & H).
  rewrite Hsel in Hsel'. simplify_eq.
  destruct (negb _) in H.
  { inversion H; subst. done. }
  apply bind_ok_inv in H as (subject & s2 & Hmut & H).
  inversion H; subst; clear H. simpl in *.
  unfold _mutate_by_ids in Hmut.
  apply bind_ok_inv in Hmut as (subject' & s3 & Hcollect & H).
  apply bind_ok_inv in H as ([] & s4 & Hreg & H).
  apply bind_ok_inv in H as ([] & s5 & Htime & H).
  inversion H; subst; clear H. inversion Htime; subst; clear Htime.
  pose proof (collect_mutate_keeps_log _ _ _ _ _ _ Hcollect) as Hlog1.
  apply register_touches_keeps in Hreg. unfold keeps in *. simplify_eq.
  destruct (collect_mutate_properties _ _ _ _ _ _ Hcollect Hnodup Hheads) as [_ Hall].
  exists subject. simpl. split.
  - unfold mutation_entry. congruence.
  - match goal with H : cuboid_visual_metadata _ = _ |- _ => rewrite H end.
    exact Hall.
Qed.

(** Painting the cube ["foo"] red logs the colour it had, [None]. *)
Lemma mutation_logs_prior_values_witness :
  mutate_by (ByName "foo") [("facecolor", PyStr "red")] foo_store
    = (Ok tt, after paint_foo foo_store) /\
  cuboid_visual_metadata foo_store !! "facecolor" = Some [PyNone] /\
  cuboid_visual_metadata (after paint_foo foo_store) !! "facecolor"
    = Some [PyStr "red"] /\
  last (changelog (after paint_foo foo_store))
    = Some (Mutation [("facecolor", [PyNone])] (Some "foo") None None None) /\
  exists subject,
    changelog (after paint_foo foo_store) = changelog foo_store ++
      [Mutation subject (Some "foo") None None None] /\
    Forall2 (logs_prior [0] []
               (cuboid_visual_metadata foo_store)
               (cuboid_visual_metadata (after paint_foo foo_store)))
            [("facecolor", PyStr "red")] subject.
Proof.
  assert (Hrun : mutate_by (ByName "foo") [("facecolor", PyStr "red")] foo_store
                 = (Ok tt, after paint_foo foo_store)) by (vm_compute; reflexivity).
  assert (Hlog : changelog (after paint_foo foo_store) <> changelog foo_store)
    by (vm_compute; discriminate).
  assert (Hkeys : NoDup [("facecolor", PyStr "red")].*1)
    by (apply NoDup_singleton).
  assert (Hsel : select (ByName "foo") foo_store = (Ok ([0], []), foo_store))
    by (vm_compute; reflexivity).
  assert (Hheads : heads_unwritten (selection_slices [0] []))
    by (simpl; split; [constructor | exact I]).
  split; [exact Hrun|]. split; [vm_compute; reflexivity|].
  split; [vm_compute; reflexivity|]. split; [vm_compute; reflexivity|].
  exact (mutation_logs_prior_values _ _ _ _ _ _ Hrun Hlog Hkeys Hsel Hheads).
Defined.

(** * Calls that validate before they write *)

Section RaisesOnly.
Context (P : pyexc -> Prop).

Lemma raises_only_ret {A} (a : A) : raises_only P (ret a).
Proof. intros s r s' H. by inversion H. Qed.

Lemma raises_only_raise {A} e : P e -> raises_only P (raise (A := A) e).
Proof. intros He s r s' H. by inversion H. Qed.

Lemma raises_only_get : raises_only P get.
Proof. intros s r s' H. by inversion H. Qed.

Lemma raises_only_modify f : raises_only P (modify f).
Proof. intros s r s' H. by inversion H. Qed.

Lemma raises_only_bind {A B} (c : M A) (k : A -> M B) :
  raises_only P c -> (forall a, raises_only P (k a)) -> raises_only P (bind c k).
Proof.
  intros Hc Hk s r s' H.
  apply bind_inv in H as [(a & s1 & H1 & H2)|(e & H1 & ->)].
  - exact (Hk _ _ _ _ H2).
  - exact (Hc _ _ _ H1).
Qed.

Lemma raises_only_for_each {A} (l : list A) body :
  (forall x, raises_only P (body x)) -> raises_only P (for_each l body).
Proof.
  intros Hb. induction l as [|x l IH]; simpl.
  - apply raises_only_ret.
  - apply raises_only_bind; auto.
Qed.
End RaisesOnly.

(** A proof of [raises_only P c] that follows the shape of [c]; [tac] proves
    [P e] for the exceptions [raise e]. *)
Ltac raises_step tac :=
  lazymatch goal with
  | |- raises_only _ (ret _) => apply raises_only_ret
  | |- raises_only _ (raise _) => apply raises_only_raise; tac
  | |- raises_only _ get => apply raises_only_get
  | |- raises_only _ (modify _) => apply raises_only_modify
  | |- raises_only _ (bind _ _) => apply raises_only_bind; [|intros ?]
  | |- raises_only _ (for_each _ _) => apply raises_only_for_each; intros ?
  | |- raises_only _ (match ?x with _ => _ end) => destruct x
  | |- raises_only _ ?c => let h := head_of c in progress unfold h
  end.

(** A snapshot that fails has written nothing. *)
Lemma snapshot_failed_unchanged e s s' : snapshot s = (Raise e, s') -> s' = s.
Proof.
  unfold snapshot, bind, get, modify, raise. cbv zeta.
  destruct (current_scene_is_valid _ _); intros H; by inversion H.
Qed.

(** * What selection by coordinate does return *)

Lemma matching_base_vectors_spec coordinates coordinate idxs matching :
  matching_base_vectors coordinates coordinate idxs = Some matching ->
  forall idx, idx ∈ matching <->
    idx ∈ idxs /\
    exists primitive, coordinates !! idx = Some primitive /\
                      array_equal (base_vertex primitive) coordinate = true.
Proof.
  revert matching. induction idxs as [|i idxs IH]; intros matching H idx; simpl in H.
  - simplify_eq. split; [intros Hin; by apply elem_of_nil in Hin|].
    intros [Hin _]. by apply elem_of_nil in Hin.
  - destruct (coordinates !! i) as [primitive|] eqn:Hi; [|discriminate].
    destruct (matching_base_vectors coordinates coordinate idxs) as [rest|];
      [|discriminate].
    simpl in H. simplify_eq. specialize (IH rest eq_refl idx).
    destruct (array_equal (base_vertex primitive) coordinate) eqn:Heq.
    + rewrite !elem_of_cons, IH. split.
      * intros [->|[? ?]]; eauto.
      * intros [[->|?] ?]; eauto.
    + rewrite elem_of_cons, IH. split.
      * intros [? ?]; eauto.
      * intros [[->|?] (p & Hp & Hp')]; [|eauto]. congruence.
Qed.

Lemma classify_sound matching pending_primitives pending_composites ps cs :
  classify matching pending_primitives pending_composites = (ps, cs) ->
  (forall p, p ∈ ps -> p ∈ matching /\ p ∈ pending_primitives) /\
  (forall c, c ∈ cs -> start c ∈ matching /\ c ∈ pending_composites).
Proof.
  revert pending_primitives pending_composites ps cs.
  induction matching as [|idx matching IH]; intros pp pc ps cs H; simpl in H.
  - simplify_eq. split; intros ? Hin; by apply elem_of_nil in Hin.
  - destruct pp as [|p pp]; destruct pc as [|c pc];
      repeat case_decide;
      destruct (classify matching _ _) as [ps' cs'] eqn:Hrec;
      apply IH in Hrec as [Hp Hc]; simpl in H; simplify_eq;
      split; intros x Hin;
      repeat match goal with
             | H : _ ∈ _ :: _ |- _ => apply elem_of_cons in H as [->|H]
             | H : _ ∈ [] ++ _ |- _ => simpl in H
             end;
      rewrite ?elem_of_cons;
      try (apply Hp in Hin as [? ?]); try (apply Hc in Hin as [? ?]);
      rewrite ?elem_of_cons in *; intuition eauto.
Qed.

(** Whatever selection by coordinate returns was touched as an object of its
    own and has the coordinate for base vertex: a returned id is logged as a
    primitive, a returned range is logged as a composite and its first
    member matches.  A primitive inside a composite, which the index never
    logs as a primitive, is therefore never returned on its own. *)
Lemma _select_by_coordinate_sound x y z s ps cs s' :
  _select_by_coordinate [x; y; z] s = (Ok (ps, cs), s') ->
  (forall p, p ∈ ps ->
     p ∈ primitives (cuboid_index s) /\
     exists row, cuboid_coordinates s !! p = Some row /\
       array_equal (base_vertex row) (_convert_basis (V3 x y z)) = true) /\
  (forall c, c ∈ cs ->
     c ∈ composites (cuboid_index s) /\
     exists row, cuboid_coordinates s !! start c = Some row /\
       array_equal (base_vertex row) (_convert_basis (V3 x y z)) = true).
Proof.
  unfold _select_by_coordinate. cbv zeta. intros H. minv.
  match goal with H : matching_base_vectors _ _ _ = Some _ |- _ =>
    pose proof (matching_base_vectors_spec _ _ _ _ H) as Hm end.
  match goal with H : classify _ _ _ = (_, _) |- _ =>
    apply classify_sound in H as [Hp Hc] end.
  split.
  - intros p Hin. apply Hp in Hin as [Hin ?]. apply Hm in Hin as [_ ?]. eauto.
  - intros c Hin. apply Hc in Hin as [Hin ?]. apply Hm in Hin as [_ ?]. eauto.
Qed.

(** * Further properties: what the calls never do *)

#[local] Instance never_back_preorder : PreOrder never_back.
Proof.
  split.
  - intros s. split; [exists []; by rewrite app_nil_r | lia].
  - intros s1 s2 s3 ([l1 H1] & ?) ([l2 H2] & ?). split; [|lia].
    exists (l1 ++ l2). by rewrite H2, H1, app_assoc.
Qed.

Ltac never_back_update :=
  unfold never_back; repeat case_match; simpl;
  (split; [first [ exists []; by rewrite app_nil_r | eexists [_]; reflexivity ] | lia]).

Lemma run_call_never_back new_cuboid new_composite c :
  preserves never_back (run_call new_cuboid new_composite c).
Proof. destruct c; simpl; pres never_back_update. Qed.

(** X1.  No call of a public method, however it ends, removes or rewrites an
    entry of the change log, and none lowers the primitive counter, the
    object counter, the time-step or the scene counter. *)
Theorem calls_never_go_back new_cuboid new_composite c s r s' :
  run_call new_cuboid new_composite c s = (r, s') ->
  (exists entries, changelog s' = changelog s ++ entries) /\
  primitive_counter s <= primitive_counter s' /\
  num_objs s <= num_objs s' /\
  time_step s <= time_step s' /\
  scene_counter s <= scene_counter s'.
Proof. apply run_call_never_back. Qed.

(** The failed second [add_cube] of the name ["foo"] keeps the log and moves
    the primitive counter forward. *)
Lemma calls_never_go_back_witness :
  run_call example_cuboid example_composite (AddCube foo_cube) foo_store
    = (Raise Exception, after (add_cube foo_cube) foo_store) /\
  primitive_counter foo_store
    <= primitive_counter (after (add_cube foo_cube) foo_store).
Proof.
  assert (H : run_call example_cuboid example_composite (AddCube foo_cube) foo_store
              = (Raise Exception, after (add_cube foo_cube) foo_store))
    by (vm_compute; reflexivity).
  split; [exact H|].
  exact (proj1 (proj2 (calls_never_go_back _ _ _ _ _ _ H))).
Defined.

Lemma mutate_by_frame sel kwargs :
  preserves (keeps beside_metadata) (mutate_by sel kwargs).
Proof. keeps_frame. Qed.

Lemma transform_by_frame sel translate reflect :
  preserves (keeps beside_coordinates) (transform_by sel translate reflect).
Proof. keeps_frame. Qed.

(** X2.  A mutation, however it ends, changes nothing but the visual
    metadata, the index, the time-step and the log: the geometry, the shapes,
    the names, the bounding box, the mean and the counters of objects,
    primitives and scenes are as before. *)
Theorem mutation_keeps_geometry sel kwargs s r s' :
  mutate_by sel kwargs s = (r, s') ->
  dims s' = dims s /\ mean s' = mean s /\ total s' = total s /\
  num_objs s' = num_objs s /\ primitive_counter s' = primitive_counter s /\
  scene_counter s' = scene_counter s /\
  cuboid_coordinates s' = cuboid_coordinates s /\
  cuboid_shapes s' = cuboid_shapes s /\ cuboid_names s' = cuboid_names s.
Proof.
  intros H. apply mutate_by_frame in H. unfold keeps, beside_metadata in H.
  by simplify_eq.
Qed.

Lemma mutation_keeps_geometry_witness :
  mutate_by (ByName "foo") [("facecolor", PyStr "red")] foo_store
    = (Ok tt, after paint_foo foo_store) /\
  cuboid_coordinates (after paint_foo foo_store) = cuboid_coordinates foo_store.
Proof.
  assert (H : mutate_by (ByName "foo") [("facecolor", PyStr "red")] foo_store
              = (Ok tt, after paint_foo foo_store)) by (vm_compute; reflexivity).
  split; [exact H|].
  destruct (mutation_keeps_geometry _ _ _ _ _ H) as (_ & _ & _ & _ & _ & _ & Hc & _).
  exact Hc.
Defined.

(** X3.  A transform, however it ends, changes nothing but the coordinates,
    the index, the time-step and the log: the shapes, the visual metadata,
    the names, the bounding box, the mean and the counters of objects,
    primitives and scenes are as before. *)
Theorem transform_keeps_attributes sel translate reflect s r s' :
  transform_by sel translate reflect s = (r, s') ->
  dims s' = dims s /\ mean s' = mean s /\ total s' = total s /\
  num_objs s' = num_objs s /\ primitive_counter s' = primitive_counter s /\
  scene_counter s' = scene_counter s /\
  cuboid_shapes s' = cuboid_shapes s /\
  cuboid_visual_metadata s' = cuboid_visual_metadata s /\
  cuboid_names s' = cuboid_names s.
Proof.
  intros H. apply transform_by_frame in H. unfold keeps, beside_coordinates in H.
  by simplify_eq.
Qed.

Lemma transform_keeps_attributes_witness :
  transform_by (ByName "foo") (Some (V3 5 0 0)) None foo_store
    = (Ok tt, after move_foo foo_store) /\
  cuboid_shapes (after move_foo foo_store) = cuboid_shapes foo_store /\
  cuboid_visual_metadata (after move_foo foo_store) = cuboid_visual_metadata foo_store.
Proof.
  assert (H : transform_by (ByName "foo") (Some (V3 5 0 0)) None foo_store
              = (Ok tt, after move_foo foo_store)) by (vm_compute; reflexivity).
  split; [exact H|].
  destruct (transform_keeps_attributes _ _ _ _ _ _ H)
    as (_ & _ & _ & _ & _ & _ & Hs & Hm & _).
  exact (conj Hs Hm).
Defined.

(** * Further properties: names *)

#[local] Instance names_kept_preorder : PreOrder names_kept.
Proof. split; unfold names_kept; [intros s | intros s1 s2 s3]; eauto. Qed.

Ltac names_update := unfold names_kept; repeat case_match; simpl; by intros.

Lemma _add_name_names_kept name ids : preserves names_kept (_add_name name ids).
Proof.
  intros s r s' H n b Hb. unfold _add_name in H. destruct name as [name|].
  - apply bind_inv in H as [(s0 & s1 & Hget & H)|(e & Hget & _)];
      [|by inversion Hget].
    inversion Hget; subst; clear Hget.
    case_decide as Htaken; [by inversion H; subst|].
    destruct ids as [[?|] [?|]]; inversion H; subst; simpl; try done.
    all: rewrite lookup_insert_ne; [done|]; intros ->; apply Htaken; eauto.
  - by inversion H; subst.
Qed.
#[export] Hint Resolve _add_name_names_kept : pres.

Lemma run_call_names_kept new_cuboid new_composite c :
  preserves names_kept (run_call new_cuboid new_composite c).
Proof. destruct c; simpl; pres names_update. Qed.

(** X4.  A name is bound once and for all: whatever call follows, and however
    it ends, a name that was bound is still bound to the same ids. *)
Theorem names_are_write_once new_cuboid new_composite c s r s' name ids :
  run_call new_cuboid new_composite c s = (r, s') ->
  cuboid_names s !! name = Some ids ->
  cuboid_names s' !! name = Some ids.
Proof. intros H Hb. apply run_call_names_kept in H. by apply H. Qed.

Lemma names_are_write_once_witness :
  cuboid_names foo_store !! "foo" = Some (Some [0], None) /\
  cuboid_names (after (add_cube foo_cube) foo_store) !! "foo" = Some (Some [0], None).
Proof.
  assert (H : run_call example_cuboid example_composite (AddCube foo_cube) foo_store
              = (Raise Exception, after (add_cube foo_cube) foo_store))
    by (vm_compute; reflexivity).
  assert (Hn : cuboid_names foo_store !! "foo" = Some (Some [0], None))
    by (vm_compute; reflexivity).
  split; [exact Hn|].
  exact (names_are_write_once _ _ _ _ _ _ _ _ H Hn).
Defined.

Lemma _add_name_taken name ids s bound :
  cuboid_names s !! name = Some bound ->
  _add_name (Some name) ids s = (Raise Exception, s).
Proof.
  intros Hb. unfold _add_name, bind, get. case_decide as Htaken; [done|].
  exfalso. apply Htaken. eauto.
Qed.

(** X5.  Adding a cube under a name that is already bound never succeeds, and
    the failed call leaves the log, the time-step, the object counter and
    all bindings as they were. *)
Theorem add_cube_taken_name_fails cube name bound s r s' :
  add_cube cube s = (r, s') ->
  obj_name cube = Some name ->
  cuboid_names s !! name = Some bound ->
  r <> Ok tt /\
  changelog s' = changelog s /\ time_step s' = time_step s /\
  num_objs s' = num_objs s /\ cuboid_names s' = cuboid_names s.
Proof.
  unfold add_cube. intros H Hn Hb. rewrite Hn in H.
  apply bind_inv in H as [(id & s1 & Hadd & H)|(e & Hadd & ->)].
  - apply _add_cuboid_primitive_frame in Hadd. unfold keeps in Hadd.
    simplify_eq.
    match goal with H : cuboid_names s1 = _ |- _ => rewrite <- H in Hb end.
    unfold bind in H. rewrite (_add_name_taken _ _ _ _ Hb) in H.
    inversion H; subst. repeat split; (done || congruence).
  - apply _add_cuboid_primitive_frame in Hadd. unfold keeps in Hadd.
    simplify_eq. done.
Qed.

Lemma add_cube_taken_name_fails_witness :
  add_cube foo_cube foo_store = (Raise Exception, after (add_cube foo_cube) foo_store) /\
  changelog (after (add_cube foo_cube) foo_store) = changelog foo_store /\
  cuboid_names (after (add_cube foo_cube) foo_store) = cuboid_names foo_store.
Proof.
  assert (H : add_cube foo_cube foo_store
              = (Raise Exception, after (add_cube foo_cube) foo_store))
    by (vm_compute; reflexivity).
  assert (Hn : cuboid_names foo_store !! "foo" = Some (Some [0], None))
    by (vm_compute; reflexivity).
  destruct (add_cube_taken_name_fails _ _ _ _ _ _ H eq_refl Hn)
    as (_ & Hlog & _ & _ & Hnames).
  split; [exact H|]. exact (conj Hlog Hnames).
Defined.

(** * Further properties: what an insertion does *)

Lemma _add_cuboid_primitive_effect c s id s' :
  _add_cuboid_primitive c s = (Ok id, s') ->
  cuboid_shapes s' !! primitive_counter s = Some (obj_shape c) /\
  total s' = vadd (total s) (np_mean (obj_points c)) /\
  mean s' = vdiv (total s') (inject_Z (Z.of_nat (num_objs s + 1))) /\
  num_objs s' = num_objs s.
Proof.
  unfold _add_cuboid_primitive. cbv zeta. intros H. minv.
  repeat match goal with
  | H : modify (fun s => set_total _ s) _ = _ |- _ => inversion H; subst; clear H
  | H : modify (fun s => set_mean _ s) _ = _ |- _ => inversion H; subst; clear H
  | H : modify (fun s => set_cuboid_shapes _ s) _ = _ |- _ =>
      inversion H; subst; clear H
  | H : modify (fun s => set_primitive_counter _ s) _ = _ |- _ =>
      inversion H; subst; clear H
  end.
  chain (fun s => (primitive_counter s, cuboid_shapes s, total s, mean s, num_objs s)).
  unfold keeps in *. simpl in *. simplify_eq. simpl in *.
  match goal with
  | Hn : ¬ length (cuboid_shapes ?a) <= primitive_counter ?a |- _ =>
      assert (Hsh : cuboid_shapes a = cuboid_shapes s) by congruence;
      assert (Hpc : primitive_counter a = primitive_counter s) by congruence;
      rewrite Hsh, Hpc in Hn
  end.
  split; [|repeat split; congruence].
  match goal with
  | |- cuboid_shapes ?b !! _ = _ =>
      assert (Hb : cuboid_shapes b
                   = <[primitive_counter s := obj_shape c]> (cuboid_shapes s))
        by congruence;
      rewrite Hb
  end.
  apply list_lookup_insert_eq. lia.
Qed.

Lemma _add_cuboid_composite_id c s ids s' :
  _add_cuboid_composite c s = (Ok ids, s') ->
  ids = Slice (primitive_counter s) (primitive_counter s + length (comp_faces c)) /\
  primitive_counter s' = primitive_counter s + length (comp_faces c).
Proof.
  unfold _add_cuboid_composite. cbv zeta. intros H. minv.
  all: repeat match goal with
  | H : modify (fun s => set_primitive_counter _ s) _ = _ |- _ =>
      inversion H; subst; clear H
  end.
  all: chain primitive_counter; unfold keeps in *; simpl in *.
  all: split; [f_equal|]; congruence.
Qed.

Lemma _add_cuboid_composite_frame c :
  preserves (keeps (fun s => (cuboid_names s, changelog s, time_step s,
                              scene_counter s, num_objs s)))
            (_add_cuboid_composite c).
Proof. keeps_frame. Qed.

(** What a call of [add_cube] that returns has done to the log, the counters
    and the names. *)
Lemma add_cube_step cube s s' :
  add_cube cube s = (Ok tt, s') ->
  changelog s' = changelog s ++ [Addition (time_step s) None] /\
  time_step s' = time_step s + 1 /\
  num_objs s' = num_objs s + 1 /\
  primitive_counter s' = primitive_counter s + 1 /\
  scene_counter s' = scene_counter s.
Proof.
  unfold add_cube. intros H.
  apply bind_ok_inv in H as (id & s1 & Hadd & H).
  apply bind_ok_inv in H as ([] & s2 & Hname & H).
  apply _add_cuboid_primitive_id in Hadd as Hid. destruct Hid as [-> Hpc].
  apply _add_cuboid_primitive_frame in Hadd. unfold keeps in Hadd.
  assert (Hn : keeps (fun s => (changelog s, time_step s, scene_counter s,
                                num_objs s, primitive_counter s)) s1 s2).
  { refine ((_ : preserves _ (_add_name _ _)) _ _ _ Hname). keeps_frame. }
  clear Hname. minv. inv_modify.
  match goal with
  | H : _update_bounds _ _ = _ |- _ =>
      assert (Hb : keeps (fun s => (changelog s, time_step s, scene_counter s,
                                    num_objs s, primitive_counter s)) _ s')
        by (refine ((_ : preserves _ (_update_bounds _)) _ _ _ H); keeps_frame);
      clear H
  end.
  unfold keeps, changelog_append, modify in *. simpl in *. simplify_eq. simpl in *.
  repeat split; congruence.
Qed.

Lemma add_composite_step composite s s' :
  add_composite composite s = (Ok tt, s') ->
  changelog s' = changelog s ++ [Addition (time_step s) None] /\
  time_step s' = time_step s + 1 /\
  num_objs s' = num_objs s + 1 /\
  primitive_counter s' = primitive_counter s + length (comp_faces composite) /\
  scene_counter s' = scene_counter s.
Proof.
  unfold add_composite. intros H.
  apply bind_ok_inv in H as (id & s1 & Hadd & H).
  apply bind_ok_inv in H as ([] & s2 & Hname & H).
  apply _add_cuboid_composite_id in Hadd as Hid. destruct Hid as [-> Hpc].
  apply _add_cuboid_composite_frame in Hadd. unfold keeps in Hadd.
  assert (Hn : keeps (fun s => (changelog s, time_step s, scene_counter s,
                                num_objs s, primitive_counter s)) s1 s2).
  { refine ((_ : preserves _ (_add_name _ _)) _ _ _ Hname). keeps_frame. }
  clear Hname. minv. inv_modify.
  match goal with
  | H : _update_bounds _ _ = _ |- _ =>
      assert (Hb : keeps (fun s => (changelog s, time_step s, scene_counter s,
                                    num_objs s, primitive_counter s)) _ s')
        by (refine ((_ : preserves _ (_update_bounds _)) _ _ _ H); keeps_frame);
      clear H
  end.
  unfold keeps, changelog_append, modify in *. simpl in *. simplify_eq. simpl in *.
  repeat split; congruence.
Qed.

Lemma add_composite_named composite n s s' :
  add_composite composite s = (Ok tt, s') -> comp_name composite = Some n ->
  cuboid_names s' !! n
  = Some (None, Some [Slice (primitive_counter s)
                            (primitive_counter s + length (comp_faces composite))]).
Proof.
  unfold add_composite. intros H Hn. rewrite Hn in H.
  apply bind_ok_inv in H as (id & s1 & Hadd & H).
  apply bind_ok_inv in H as ([] & s2 & Hname & H).
  apply _add_cuboid_composite_id in Hadd as Hid. destruct Hid as [-> _].
  unfold _add_name in Hname. minv. inv_modify.
  match goal with
  | H : _update_bounds _ _ = _ |- _ => apply _update_bounds_frame in H
  end.
  unfold keeps, changelog_append, modify in *. simpl in *.
  simplify_eq. simpl in *.
  match goal with H : cuboid_names s' = _ |- _ => rewrite H end.
  apply lookup_insert_eq.
Qed.

(** * Further properties: the log and the time-step *)

Ltac log_facts :=
  chain (fun s => (changelog s, time_step s));
  unfold changelog_append in *; inv_modify;
  unfold keeps in *; simpl in *; simplify_eq; simpl in *.

Ltac one_step_done :=
  simpl;
  first
    [ left; split; congruence
    | right; eexists; split;
      [ repeat match goal with
               | H : changelog _ = _ |- _ => rewrite H; clear H
               end; reflexivity
      | split; [congruence | intros ? ? [=]; congruence] ] ].

Lemma mutate_by_step sel kwargs s s' :
  mutate_by sel kwargs s = (Ok tt, s') -> one_step s s'.
Proof.
  unfold mutate_by, _mutate_by_ids. cbv zeta. intros H. minv; log_facts.
  all: unfold one_step; one_step_done.
Qed.

Lemma transform_by_step sel translate reflect s s' :
  transform_by sel translate reflect s = (Ok tt, s') -> one_step s s'.
Proof.
  unfold transform_by, _transform_by_ids. cbv zeta. intros H. minv; log_facts.
  all: unfold one_step; one_step_done.
Qed.

Lemma clone_by_offset_step new_cuboid new_composite
    offset coordinate name timestep scene kwargs s s' :
  clone_by_offset new_cuboid new_composite offset coordinate name timestep scene
                  kwargs s = (Ok tt, s') ->
  one_step s s'.
Proof.
  unfold clone_by_offset. cbv zeta. intros H. minv; log_facts.
  all: unfold one_step; one_step_done.
Qed.

Lemma snapshot_step s s' : snapshot s = (Ok tt, s') -> one_step s s'.
Proof.
  unfold snapshot. cbv zeta. intros H. minv; log_facts.
  all: unfold one_step; one_step_done.
Qed.

Lemma run_call_step new_cuboid new_composite c s s' :
  run_call new_cuboid new_composite c s = (Ok tt, s') -> one_step s s'.
Proof.
  destruct c; simpl; intros H.
  - right. destruct (add_cube_step _ _ _ H) as (? & ? & _).
    eexists. repeat split; [eassumption..|]. by intros ? ? [= <- _].
  - right. destruct (add_cube_step _ _ _ H) as (? & ? & _).
    eexists. repeat split; [eassumption..|]. by intros ? ? [= <- _].
  - right. destruct (add_composite_step _ _ _ H) as (? & ? & _).
    eexists. repeat split; [eassumption..|]. by intros ? ? [= <- _].
  - exact (mutate_by_step _ _ _ _ H).
  - exact (transform_by_step _ _ _ _ _ H).
  - exact (clone_by_offset_step _ _ _ _ _ _ _ _ _ _ H).
  - exact (snapshot_step _ _ H).
Qed.

Lemma one_step_log_in_step s s' : one_step s s' -> log_in_step s -> log_in_step s'.
Proof.
  intros [[Hlog Ht]|(e & Hlog & Ht & He)] [Hlen Hpos]; unfold log_in_step.
  - rewrite Hlog, Ht. done.
  - rewrite Hlog, Ht, length_app. simpl. split; [lia|].
    intros i t n Hi. apply lookup_app_Some in Hi as [Hi|[Hge Hi]]; [eauto|].
    destruct (i - length (changelog s)) as [|k] eqn:Hk; simpl in Hi; [|done].
    injection Hi as ->. rewrite (He _ _ eq_refl). lia.
Qed.

Lemma run_calls_log_in_step new_cuboid new_composite calls s s' :
  for_each calls (run_call new_cuboid new_composite) s = (Ok tt, s') ->
  log_in_step s -> log_in_step s'.
Proof.
  revert s. induction calls as [|c calls IH]; intros s H Hs; simpl in H.
  - by inversion H; subst.
  - apply bind_ok_inv in H as ([] & s1 & Hcall & H).
    apply (IH _ H). eapply one_step_log_in_step; [|done].
    by eapply run_call_step.
Qed.

(** X6.  A cube that [add_cube] stored under a name is what [_select_by_name]
    returns for that name: the one primitive id that the cube was given, and
    no composite. *)
Theorem named_cube_found_by_name cube name s s' :
  add_cube cube s = (Ok tt, s') -> obj_name cube = Some name ->
  _select_by_name name s' = (Ok ([primitive_counter s], []), s').
Proof.
  intros H Hn. destruct (add_cube_named _ _ _ _ H Hn) as [Hb _].
  unfold _select_by_name, bind, get. by rewrite Hb.
Qed.

Lemma named_cube_found_by_name_witness :
  add_cube foo_cube init = (Ok tt, foo_store) /\
  _select_by_name "foo" foo_store = (Ok ([0], []), foo_store).
Proof.
  assert (H : add_cube foo_cube init = (Ok tt, foo_store))
    by (vm_compute; reflexivity).
  split; [exact H|].
  exact (named_cube_found_by_name foo_cube "foo" init foo_store H eq_refl).
Defined.

(** X7.  A composite that [add_composite] stored under a name is what
    [_select_by_name] returns for that name: no primitive, and the one range
    of ids that the composite was given, which starts at the number of
    primitives stored before and has one id for each cube of the
    composite. *)
Theorem named_composite_found_by_name composite name s s' :
  add_composite composite s = (Ok tt, s') -> comp_name composite = Some name ->
  _select_by_name name s'
  = (Ok ([], [Slice (primitive_counter s)
                    (primitive_counter s + length (comp_faces composite))]), s').
Proof.
  intros H Hn. pose proof (add_composite_named _ _ _ _ H Hn) as Hb.
  unfold _select_by_name, bind, get. by rewrite Hb.
Qed.

Lemma named_composite_found_by_name_witness :
  add_composite bar_composite foo_store
  = (Ok tt, after (add_composite bar_composite) foo_store) /\
  _select_by_name "bar" (after (add_composite bar_composite) foo_store)
  = (Ok ([], [Slice 1 3]), after (add_composite bar_composite) foo_store).
Proof.
  assert (H : add_composite bar_composite foo_store
              = (Ok tt, after (add_composite bar_composite) foo_store))
    by (vm_compute; reflexivity).
  split; [exact H|].
  exact (named_composite_found_by_name bar_composite "bar" foo_store _ H eq_refl).
Defined.

(** X8.  When [add_cube] or [add_cuboid] returns, the row and the shape of the
    object are stored at the id that was the number of primitives before;
    the counters of primitives and of objects have grown by one; the mean
    point of the object was added to [total]; and [mean] is [total] divided
    by the new number of objects. *)
Theorem added_cube_is_stored cube s s' :
  add_cube cube s = (Ok tt, s') \/ add_cuboid cube s = (Ok tt, s') ->
  cuboid_coordinates s' !! primitive_counter s = Some (obj_faces cube) /\
  cuboid_shapes s' !! primitive_counter s = Some (obj_shape cube) /\
  primitive_counter s' = primitive_counter s + 1 /\
  num_objs s' = num_objs s + 1 /\
  total s' = vadd (total s) (np_mean (obj_points cube)) /\
  mean s' = vdiv (total s') (inject_Z (Z.of_nat (num_objs s'))).
Proof.
  intros H. assert (Hadd : add_cube cube s = (Ok tt, s')) by (by destruct H).
  clear H. destruct (add_cube_step _ _ _ Hadd) as (_ & _ & Hobjs & Hpc & _).
  rewrite Hobjs. unfold add_cube in Hadd.
  apply bind_ok_inv in Hadd as (id & s1 & Hprim & H).
  destruct (_add_cuboid_primitive_id _ _ _ _ Hprim) as [-> _].
  pose proof (_add_cuboid_primitive_row _ _ _ _ Hprim) as Hrow.
  destruct (_add_cuboid_primitive_effect _ _ _ _ Hprim) as (Hshape & Htotal & Hmean & _).
  assert (K : keeps (fun s => (cuboid_coordinates s, cuboid_shapes s, total s, mean s))
                    s1 s').
  { refine ((_ : preserves _ _) _ _ _ H). keeps_frame. }
  unfold keeps in K. simplify_eq.
  repeat split; congruence.
Qed.

Lemma added_cube_is_stored_witness :
  cuboid_coordinates foo_store !! 0 = Some (obj_faces foo_cube) /\
  num_objs foo_store = 1.
Proof.
  assert (H : add_cube foo_cube init = (Ok tt, foo_store))
    by (vm_compute; reflexivity).
  destruct (added_cube_is_stored foo_cube init foo_store (or_introl H))
    as (Hrow & _ & _ & Hobjs & _).
  exact (conj Hrow Hobjs).
Defined.

(** X9.  When [add_composite] returns, the rows of the composite are read
    back, in order, by the range of ids that starts at the number of
    primitives stored before; the counter of primitives has grown by the
    number of cubes of the composite and the counter of objects by one. *)
Theorem added_composite_is_stored composite s s' :
  add_composite composite s = (Ok tt, s') ->
  get_slice (cuboid_coordinates s')
            (Slice (primitive_counter s)
                   (primitive_counter s + length (comp_faces composite)))
  = comp_faces composite /\
  primitive_counter s' = primitive_counter s + length (comp_faces composite) /\
  num_objs s' = num_objs s + 1.
Proof.
  intros Hadd. destruct (add_composite_step _ _ _ Hadd) as (_ & _ & Hobjs & Hpc & _).
  split; [|done]. unfold add_composite in Hadd.
  apply bind_ok_inv in Hadd as (ids & s1 & Hcomp & H).
  destruct (_add_cuboid_composite_id _ _ _ _ Hcomp) as [-> _].
  apply _add_cuboid_composite_rows in Hcomp as [a Ha].
  minv.
  match goal with
  | H : _update_bounds _ ?sx = _ |- _ =>
      pose proof (_update_bounds_ok_nonempty _ _ _ H) as Hne;
      assert (Hb : keeps cuboid_coordinates sx s')
        by (refine ((_ : preserves _ _) _ _ _ H); keeps_frame);
      clear H
  end.
  chain cuboid_coordinates. unfold keeps in *.
  match goal with
  | H : get_slice (cuboid_coordinates ?sx) _ <> [] |- _ =>
      assert (Heq : cuboid_coordinates sx = cuboid_coordinates s1) by congruence;
      rewrite Heq in H
  end.
  assert (Heq' : cuboid_coordinates s' = cuboid_coordinates s1) by congruence.
  rewrite Heq'. clear - Ha Hne.
  unfold np_set_slice in Ha. cbv zeta in Ha. case_decide as Hlen.
  - inversion Ha as [Ha']. by apply get_list_set_slice.
  - destruct (comp_faces composite) as [|v [|? ?]] eqn:Hfaces; try discriminate Ha.
    inversion Ha as [Ha']. exfalso. apply Hne. rewrite <- Ha'. unfold np_fill_slice.
    rewrite get_list_set_slice by (by rewrite length_replicate).
    simpl in Hlen.
    pose proof (clip_bounds (Slice (primitive_counter s) (primitive_counter s + 1))
                            (length a)) as Hc.
    unfold clip_hi, clip_lo in *. simpl in *.
    replace (_ - _) with 0 by lia. done.
Qed.

Lemma added_composite_is_stored_witness :
  get_slice (cuboid_coordinates (after (add_composite bar_composite) foo_store))
            (Slice 1 3)
  = comp_faces bar_composite.
Proof.
  assert (H : add_composite bar_composite foo_store
              = (Ok tt, after (add_composite bar_composite) foo_store))
    by (vm_compute; reflexivity).
  exact (proj1 (added_composite_is_stored bar_composite foo_store _ H)).
Defined.

(** X10.  A call that returns either leaves the log and the time-step as they
    were, or appends exactly one entry to the log and moves the time-step
    on by one. *)
Theorem returned_call_is_one_step new_cuboid new_composite c s s' :
  run_call new_cuboid new_composite c s = (Ok tt, s') ->
  (changelog s' = changelog s /\ time_step s' = time_step s) \/
  (exists entry, changelog s' = changelog s ++ [entry] /\
                 time_step s' = time_step s + 1).
Proof.
  intros H. destruct (run_call_step _ _ _ _ _ H) as [?|(e & ? & ? & _)]; eauto.
Qed.

Lemma returned_call_is_one_step_witness :
  changelog foo_store = changelog init ++ [Addition 0 None] /\
  time_step foo_store = 1.
Proof.
  assert (H : run_call example_cuboid example_composite (AddCube foo_cube) init
              = (Ok tt, foo_store)) by (vm_compute; reflexivity).
  destruct (returned_call_is_one_step _ _ _ _ _ H) as [[Hl Ht]|(e & Hl & Ht)].
  - vm_compute in Hl. discriminate Hl.
  - split; [vm_compute; reflexivity | exact Ht].
Defined.

(** * Further properties: calls that do nothing, and calls that are refused *)

Lemma select_unchanged sel s r s' : select sel s = (r, s') -> s' = s.
Proof. intros H. by apply select_readonly in H. Qed.

(** X11.  A mutation with no keyword argument, or one whose selection is
    empty, leaves the whole store as it was, however the call ends. *)
Theorem mutation_of_nothing_is_noop sel kwargs s r s' :
  mutate_by sel kwargs s = (r, s') ->
  kwargs = [] \/ select sel s = (Ok ([], []), s) ->
  s' = s.
Proof.
  unfold mutate_by, bind. intros H Hnothing.
  destruct (select sel s) as [[[ps cs]|e] s1] eqn:Hsel;
    apply select_unchanged in Hsel as ->; [|by inversion H].
  assert (Hskip : non_zero_selection ps cs && bool_decide (0 < length kwargs) = false).
  { destruct Hnothing as [->|Hempty]; [apply andb_false_r|by simplify_eq]. }
  rewrite Hskip in H. by inversion H.
Qed.

Lemma mutation_of_nothing_is_noop_witness :
  after (mutate_by (ByName "foo") []) foo_store = foo_store.
Proof.
  assert (H : mutate_by (ByName "foo") [] foo_store
              = (Ok tt, after (mutate_by (ByName "foo") []) foo_store))
    by (vm_compute; reflexivity).
  exact (mutation_of_nothing_is_noop _ _ _ _ _ H (or_introl eq_refl)).
Defined.

(** X12.  A transform whose selection is empty, or whose vector has no
    non-zero component, leaves the whole store as it was, however the call
    ends: nothing is logged and the time-step stays. *)
Theorem transform_of_nothing_is_noop sel translate reflect s r s' :
  transform_by sel translate reflect s = (r, s') ->
  select sel s = (Ok ([], []), s) \/
  (exists v, translate = Some v /\ reflect = None /\ np_any v = false) \/
  (exists v, reflect = Some v /\ np_any v = false) ->
  s' = s.
Proof.
  unfold transform_by, bind. intros H Hnothing.
  destruct (select sel s) as [[[ps cs]|e] s1] eqn:Hsel;
    apply select_unchanged in Hsel as ->; [|by inversion H].
  destruct (negb (exactly_one_set translate reflect)); [by inversion H|].
  destruct (transform_bindings translate reflect) as [[[val func] kwargs]|] eqn:Hb;
    [|by inversion H].
  assert (Hskip : non_zero_selection ps cs && np_any val = false).
  { destruct Hnothing as [Hempty|[(v & -> & -> & Hv)|(v & -> & Hv)]].
    - by simplify_eq.
    - simpl in Hb. simplify_eq. rewrite Hv. apply andb_false_r.
    - simpl in Hb. simplify_eq. rewrite Hv. apply andb_false_r. }
  rewrite Hskip in H. by inversion H.
Qed.

Lemma transform_of_nothing_is_noop_witness :
  after (transform_by (ByName "foo") (Some vzero) None) foo_store = foo_store.
Proof.
  assert (H : transform_by (ByName "foo") (Some vzero) None foo_store
              = (Ok tt, after (transform_by (ByName "foo") (Some vzero) None) foo_store))
    by (vm_compute; reflexivity).
  refine (transform_of_nothing_is_noop _ _ _ _ _ _ H _).
  right. left. exists vzero. repeat split.
Defined.

(** X13.  A transform that is given both vectors, or neither, is refused and
    writes nothing.  The selection runs first: when it raises, its exception
    is the one of the call; otherwise the call ends with a [ValueError]. *)
Theorem transform_needs_one_vector sel translate reflect s r s' :
  transform_by sel translate reflect s = (r, s') ->
  (is_Some translate <-> is_Some reflect) ->
  s' = s /\
  ((exists ids, select sel s = (Ok ids, s)) /\ r = Raise ValueError \/
   (exists e, select sel s = (Raise e, s) /\ r = Raise e)).
Proof.
  unfold transform_by, bind. intros H Hboth.
  destruct (select sel s) as [[[ps cs]|e] s1] eqn:Hsel;
    apply select_unchanged in Hsel as ->.
  - assert (Hone : exactly_one_set translate reflect = false).
    { unfold exactly_one_set. apply bool_decide_eq_false.
      destruct translate, reflect; simpl; try lia.
      + destruct Hboth as [Hb _]. destruct (Hb (mk_is_Some _ _ eq_refl)) as [? [=]].
      + destruct Hboth as [_ Hb]. destruct (Hb (mk_is_Some _ _ eq_refl)) as [? [=]]. }
    rewrite Hone in H. inversion H; subst. split; [done|]. left. eauto.
  - inversion H; subst. split; [done|]. right. eauto.
Qed.

Lemma transform_needs_one_vector_witness :
  after (transform_by (ByName "foo") (Some (V3 1 0 0)) (Some (V3 1 1 1))) foo_store
  = foo_store.
Proof.
  assert (H : transform_by (ByName "foo") (Some (V3 1 0 0)) (Some (V3 1 1 1)) foo_store
              = (Raise ValueError,
                 after (transform_by (ByName "foo") (Some (V3 1 0 0)) (Some (V3 1 1 1)))
                       foo_store))
    by (vm_compute; reflexivity).
  exact (proj1 (transform_needs_one_vector _ _ _ _ _ _ H
                  (conj (fun _ => mk_is_Some _ _ eq_refl)
                        (fun _ => mk_is_Some _ _ eq_refl)))).
Defined.

Section CloneFrames.
Variable new_cuboid : vec3 -> vec3 -> gmap string pyval -> Cuboid.
Variable new_composite : vec3 -> vec3 -> gmap string pyval -> CompositeCube.

Lemma clone_by_offset_frame offset coordinate name timestep scene kwargs :
  preserves (keeps (fun s => (cuboid_names s, scene_counter s)))
            (clone_by_offset new_cuboid new_composite offset coordinate name
                             timestep scene kwargs).
Proof. keeps_frame. Qed.

(** X14.  A clone is never named and never opens a scene: whatever
    [clone_by_offset] is given and however it ends, the name index and the
    scene counter are as they were. *)
Theorem clone_keeps_names_and_scene offset coordinate name timestep scene kwargs
    s r s' :
  clone_by_offset new_cuboid new_composite offset coordinate name timestep scene
                  kwargs s = (r, s') ->
  cuboid_names s' = cuboid_names s /\ scene_counter s' = scene_counter s.
Proof.
  intros H. apply clone_by_offset_frame in H. unfold keeps in H. by simplify_eq.
Qed.

(** X15.  [clone_by_offset] wants exactly one selector.  With none or with
    several it ends with a [ValueError] before anything is selected or
    written; and a clone of an empty selection returns without a change. *)
Theorem clone_of_nothing_is_noop offset coordinate name timestep scene kwargs
    s r s' :
  clone_by_offset new_cuboid new_composite offset coordinate name timestep scene
                  kwargs s = (r, s') ->
  (length (option_list coordinate) + length (option_list name) +
   length (option_list timestep) + length (option_list scene) <> 1 ->
   r = Raise ValueError /\ s' = s) /\
  (forall sel,
     (coordinate, name, timestep, scene)
     = (sel_coordinate sel, sel_name sel, sel_timestep sel, sel_scene sel) ->
     select sel s = (Ok ([], []), s) -> r = Ok tt /\ s' = s).
Proof.
  unfold clone_by_offset. cbv zeta. intros H. split.
  - intros Hn. rewrite bool_decide_eq_false_2 in H by done. by inversion H.
  - intros sel Hsel Hempty.
    destruct sel; simpl in *; simplify_eq; simpl in *;
      unfold bind in H; rewrite Hempty in H; by inversion H.
Qed.
End CloneFrames.

Lemma clone_keeps_names_and_scene_witness :
  cuboid_names (after (clone_by_offset example_cuboid example_composite
                         (V3 2 0 0) None (Some "foo") None None []) foo_store)
  = cuboid_names foo_store.
Proof.
  assert (H : clone_by_offset example_cuboid example_composite
                (V3 2 0 0) None (Some "foo") None None [] foo_store
              = (Ok tt, after (clone_by_offset example_cuboid example_composite
                                 (V3 2 0 0) None (Some "foo") None None []) foo_store))
    by (vm_compute; reflexivity).
  exact (proj1 (clone_keeps_names_and_scene _ _ _ _ _ _ _ _ _ _ _ H)).
Defined.

Lemma clone_of_nothing_is_noop_witness :
  after (clone_by_offset example_cuboid example_composite (V3 2 0 0)
           None None None None []) foo_store
  = foo_store.
Proof.
  assert (H : clone_by_offset example_cuboid example_composite (V3 2 0 0)
                None None None None [] foo_store
              = (Raise ValueError,
                 after (clone_by_offset example_cuboid example_composite (V3 2 0 0)
                          None None None None []) foo_store))
    by (vm_compute; reflexivity).
  apply (proj1 (clone_of_nothing_is_noop example_cuboid example_composite
                  (V3 2 0 0) None None None None [] foo_store _ _ H)).
  simpl. lia.
Defined.

(** * Further properties: the basis, equality of entries, selection *)

(** X16.  [_convert_basis] multiplies a point by the basis that [__init__]
    sets up, which exchanges the second and the third coordinate; converting
    twice gives the point back. *)
Theorem convert_basis_swaps_height_and_depth x y z :
  veq (_convert_basis (V3 x y z)) (V3 x z y) /\
  veq (_convert_basis (_convert_basis (V3 x y z))) (V3 x y z).
Proof. unfold veq, _convert_basis; simpl. repeat split; ring. Qed.

Lemma array_equal_refl a : array_equal a a = true.
Proof. unfold array_equal. by rewrite !Qeq_bool_refl. Qed.

Lemma array_equal_sym a b : array_equal a b = array_equal b a.
Proof.
  unfold array_equal.
  by rewrite (Qeq_bool_comm (vx a)), (Qeq_bool_comm (vy a)), (Qeq_bool_comm (vz a)).
Qed.

Lemma Qeq_bool_trans' x y z :
  Qeq_bool x y = true -> Qeq_bool y z = true -> Qeq_bool x z = true.
Proof.
  intros H1%Qeq_bool_iff H2%Qeq_bool_iff. apply Qeq_bool_iff. by rewrite H1.
Qed.

Lemma array_equal_trans a b c :
  array_equal a b = true -> array_equal b c = true -> array_equal a c = true.
Proof.
  unfold array_equal. rewrite !andb_true_iff.
  intros [[? ?] ?] [[? ?] ?]. repeat split; by eapply Qeq_bool_trans'.
Qed.

Lemma array_equal_1d_refl a : array_equal_1d a a = true.
Proof. induction a as [|x a IH]; simpl; [done|]. by rewrite Qeq_bool_refl. Qed.

Lemma array_equal_1d_sym a b : array_equal_1d a b = array_equal_1d b a.
Proof.
  revert b. induction a as [|x a IH]; intros [|y b]; simpl; try done.
  by rewrite IH, Qeq_bool_comm.
Qed.

Lemma array_equal_1d_trans a b c :
  array_equal_1d a b = true -> array_equal_1d b c = true ->
  array_equal_1d a c = true.
Proof.
  revert b c. induction a as [|x a IH]; intros [|y b] [|z c]; simpl; try done.
  rewrite !andb_true_iff. intros [? ?] [? ?]. split; [by eapply Qeq_bool_trans'|eauto].
Qed.

(** X17.  The hand-written [Transform.__eq__] is an equivalence on the
    [Transform] entries: every entry equals itself, the comparison gives the
    same answer in both directions although it tests the coordinate of its
    left operand first, and it is transitive.  Compared with an entry of
    another kind it has no answer. *)
Theorem transform_eq_is_an_equivalence a b c :
  is_transform a -> is_transform b -> is_transform c ->
  __eq__ a a = Some true /\
  __eq__ a b = __eq__ b a /\
  (__eq__ a b = Some true -> __eq__ b c = Some true -> __eq__ a c = Some true) /\
  (forall other, ~ is_transform other -> __eq__ a other = None).
Proof.
  destruct a as [| |t1 tn1 n1 c1 ts1 sc1|]; try done.
  destruct b as [| |t2 tn2 n2 c2 ts2 sc2|]; try done.
  destruct c as [| |t3 tn3 n3 c3 ts3 sc3|]; try done.
  intros _ _ _. repeat split.
  - simpl. rewrite array_equal_refl, !bool_decide_eq_true_2 by done.
    destruct c1; simpl; [by rewrite array_equal_1d_refl|done].
  - simpl. f_equal. rewrite (array_equal_sym t1 t2).
    rewrite (bool_decide_ext (tn1 = tn2) (tn2 = tn1)) by done.
    rewrite (bool_decide_ext (n1 = n2) (n2 = n1)) by done.
    rewrite (bool_decide_ext (ts1 = ts2) (ts2 = ts1)) by done.
    rewrite (bool_decide_ext (sc1 = sc2) (sc2 = sc1)) by done.
    f_equal. destruct c1, c2; simpl; try done. apply array_equal_1d_sym.
  - simpl. intros [= H12] [= H23]. f_equal.
    rewrite !andb_true_iff in *. rewrite !bool_decide_eq_true in *.
    destruct H12 as [[[[[Ht ->] ->] ->] ->] Hc12].
    destruct H23 as [[[[[Ht' ->] ->] ->] ->] Hc23].
    repeat split; [by eapply array_equal_trans|].
    destruct c1, c2, c3; simpl in *; try done.
    by eapply array_equal_1d_trans.
  - intros other Hother. by destruct other.
Qed.

Lemma transform_eq_is_an_equivalence_witness :
  __eq__ (Transform (V3 1 0 0) "translation" (Some "foo") None None None)
         (Transform (V3 1 0 0) "translation" (Some "foo") None None None)
  = Some true.
Proof.
  exact (proj1 (transform_eq_is_an_equivalence
                  (Transform (V3 1 0 0) "translation" (Some "foo") None None None)
                  (Transform (V3 1 0 0) "translation" (Some "foo") None None None)
                  (Transform (V3 1 0 0) "translation" (Some "foo") None None None)
                  I I I)).
Defined.

Lemma select_raises sel :
  raises_only (fun e => e = ValueError \/ e = IndexError) (select sel).
Proof.
  destruct sel; simpl.
  - unfold _select_by_coordinate.
    destruct coordinate as [|x [|y [|z [|? ?]]]];
      repeat (raises_step ltac:(auto); cbv beta zeta).
  - repeat (raises_step ltac:(auto); cbv beta zeta).
  - repeat (raises_step ltac:(auto); cbv beta zeta).
  - repeat (raises_step ltac:(auto); cbv beta zeta).
Qed.

(** X18.  Selecting, by coordinate, name, time-step or scene, only reads: the
    store is as it was, whether the selection returns or raises; and the
    only exceptions of a selection are [ValueError] and [IndexError]. *)
Theorem selection_only_reads sel s r s' :
  select sel s = (r, s') ->
  s' = s /\ (forall e, r = Raise e -> e = ValueError \/ e = IndexError).
Proof.
  intros H. split; [by apply select_unchanged in H|].
  intros e ->. exact (select_raises sel _ _ _ H).
Qed.

Lemma selection_only_reads_witness :
  after (select (ByName "bar")) foo_store = foo_store.
Proof.
  assert (H : select (ByName "bar") foo_store
              = (Raise ValueError, after (select (ByName "bar")) foo_store))
    by (vm_compute; reflexivity).
  exact (proj1 (selection_only_reads _ _ _ _ H)).
Defined.

(** X19.  Whatever [_select_by_coordinate] returns was found at the
    coordinate: every primitive id returned, and the first id of every range
    returned, is the id of a stored row whose base vertex equals the
    converted coordinate, and it is an id, or a range, of the index. *)
Theorem coordinate_selection_is_sound x y z s ps cs s' :
  _select_by_coordinate [x; y; z] s = (Ok (ps, cs), s') ->
  (forall p, p ∈ ps ->
     p ∈ primitives (cuboid_index s) /\
     exists row, cuboid_coordinates s !! p = Some row /\
       array_equal (base_vertex row) (_convert_basis (V3 x y z)) = true) /\
  (forall c, c ∈ cs ->
     c ∈ composites (cuboid_index s) /\
     exists row, cuboid_coordinates s !! start c = Some row /\
       array_equal (base_vertex row) (_convert_basis (V3 x y z)) = true).
Proof. apply _select_by_coordinate_sound. Qed.

Lemma coordinate_selection_is_sound_witness :
  _select_by_coordinate [0; 0; 0]%Q foo_store = (Ok ([0], []), foo_store) /\
  exists row, cuboid_coordinates foo_store !! 0 = Some row /\
    array_equal (base_vertex row) (_convert_basis (V3 0 0 0)) = true.
Proof.
  assert (H : _select_by_coordinate [0; 0; 0]%Q foo_store = (Ok ([0], []), foo_store))
    by (vm_compute; reflexivity).
  split; [exact H|].
  destruct (coordinate_selection_is_sound _ _ _ _ _ _ _ H) as [Hp _].
  exact (proj2 (Hp 0 ltac:(apply list_elem_of_singleton; reflexivity))).
Defined.

(** * Further properties: the buffer of rows *)

(** Inversion of a computation, however it has ended. *)
Ltac minv_all :=
  repeat match goal with
  | H : bind _ _ _ = (_, _) |- _ =>
      let H1 := fresh "Hrun" in
      let Hr := fresh "Hr" in
      apply bind_inv in H as [(? & ? & H1 & H)|(? & H & Hr)];
      [|first [discriminate Hr | injection Hr as <- | subst]]
  | H : ret _ _ = _ |- _ => inversion H; subst; clear H
  | H : get _ = _ |- _ => inversion H; subst; clear H
  | H : raise _ _ = _ |- _ => inversion H; subst; clear H
  | H : modify _ _ = (Raise _, _) |- _ => discriminate H
  | H : (if ?b then _ else _) _ = (_, _) |- _ => destruct b
  | H : (match ?x with _ => _ end) _ = (_, _) |- _ => destruct x eqn:?
  end.

Ltac capacity_facts :=
  chain (fun s => (primitive_counter s, length (cuboid_coordinates s)));
  inv_modify; unfold keeps, capacity_ok in *; simpl in *; simplify_eq; simpl in *.

Lemma _add_cuboid_primitive_capacity c s r s' :
  capacity_ok s -> _add_cuboid_primitive c s = (r, s') -> capacity_ok s'.
Proof.
  unfold _add_cuboid_primitive. cbv zeta. intros HI H. minv_all.
  all: capacity_facts.
  all: repeat case_decide; simpl in *.
  all: rewrite ?length_insert, ?length_np_resize in *.
  all: lia.
Qed.

Lemma double_until_grows fuel current_no_of_entries num_cubes r :
  double_until fuel current_no_of_entries num_cubes = Some r ->
  current_no_of_entries <= r.
Proof.
  revert current_no_of_entries.
  induction fuel as [|fuel IH]; intros cur; simpl; case_decide as Hlt; try done.
  - intros [= ->]. done.
  - intros Hr%IH. lia.
  - intros [= ->]. done.
Qed.

Lemma length_np_set_slice {A} (a a' : list A) sl block :
  np_set_slice a sl block = Some a' -> length a' = length a.
Proof.
  unfold np_set_slice. cbv zeta. case_decide as Hlen.
  - intros [= <-]. by apply length_list_set_slice.
  - destruct block as [|v [|? ?]]; try done. intros [= <-].
    unfold np_fill_slice. apply length_list_set_slice. by rewrite length_replicate.
Qed.

(** A block that was written at [base] fits in the buffer, unless it is a
    single row that was broadcast over no row at all. *)
Lemma np_set_slice_fits {A} (a a' : list A) base block :
  np_set_slice a (Slice base (base + length block)) block = Some a' ->
  base <= length a -> 0 < length block ->
  base + length block <= length a \/ length a = base.
Proof.
  unfold np_set_slice, clip_hi, clip_lo. cbv zeta. simpl. intros H Hbase Hpos.
  case_decide as Hlen; [lia|].
  destruct block as [|v [|? ?]]; try done. simpl in *. lia.
Qed.

(** The exceptions of the steps that have raised are not [Diverges], unless
    the step is the loop that doubles the buffer. *)
Ltac exception_facts :=
  repeat match goal with
  | H : ?c ?s = (Raise ?e, _) |- _ =>
      is_var e;
      lazymatch goal with
      | _ : e <> Diverges |- _ => fail
      | _ => idtac
      end;
      assert (e <> Diverges)
        by (refine ((_ : raises_only (fun e => e <> Diverges) c) _ _ _ H);
            repeat (raises_step ltac:(done); cbv beta zeta))
  end.

Lemma _add_cuboid_composite_capacity c :
  maintains capacity_ok (fun e => e <> Diverges) (_add_cuboid_composite c).
Proof.
  intros s r s' HI H. unfold _add_cuboid_composite in H. cbv zeta in H. minv_all.
  all: exception_facts.
  all: try match goal with
       | H : np_set_slice _ _ _ = Some _ |- _ =>
           pose proof (length_np_set_slice _ _ _ _ H) as Hlen;
           pose proof (np_set_slice_fits _ _ _ _ H) as Hfit
       end.
  all: try match goal with
       | H : double_until _ _ _ = Some _ |- _ => apply double_until_grows in H
       end.
  all: try match goal with
       | H : double_until ?f ?cur ?n = None |- _ =>
           pose proof (double_until_ends f cur n) as Hends; rewrite H in Hends
       end.
  all: capacity_facts.
  all: rewrite ?length_np_resize in *.
  all: try (assert (Hs : is_Some (@None nat)) by (apply Hends; lia);
            destruct Hs as [? [=]]).
  all: (split; [lia | first [done | assumption]]).
Qed.

Section Maintains.
Context (I : Space -> Prop) (P : pyexc -> Prop).

Lemma maintains_ret {A} (a : A) : maintains I P (ret a).
Proof. intros s r s' HI H. by inversion H; subst. Qed.

Lemma maintains_raise {A} e : P e -> maintains I P (raise (A := A) e).
Proof. intros He s r s' HI H. by inversion H; subst. Qed.

Lemma maintains_get : maintains I P get.
Proof. intros s r s' HI H. by inversion H; subst. Qed.

Lemma maintains_modify f : (forall s, I s -> I (f s)) -> maintains I P (modify f).
Proof. intros Hf s r s' HI H. inversion H; subst. split; [by apply Hf|done]. Qed.

Lemma maintains_bind {A B} (c : M A) (k : A -> M B) :
  maintains I P c -> (forall a, maintains I P (k a)) -> maintains I P (bind c k).
Proof.
  intros Hc Hk s r s' HI H.
  apply bind_inv in H as [(a & s1 & H1 & H2)|(e & H1 & ->)].
  - destruct (Hc _ _ _ HI H1) as [HI1 _]. exact (Hk _ _ _ _ HI1 H2).
  - exact (Hc _ _ _ HI H1).
Qed.

Lemma maintains_for_each {A} (l : list A) body :
  (forall x, maintains I P (body x)) -> maintains I P (for_each l body).
Proof.
  intros Hb. induction l as [|x l IH]; simpl.
  - apply maintains_ret.
  - apply maintains_bind; auto.
Qed.

Lemma maintains_collect {A B} (l : list A) (body : A -> M B) :
  (forall x, maintains I P (body x)) -> maintains I P (collect l body).
Proof.
  intros Hb. induction l as [|x l IH]; simpl.
  - apply maintains_ret.
  - apply maintains_bind; [auto|]. intros b.
    apply maintains_bind; [auto|]. intros bs. apply maintains_ret.
Qed.
End Maintains.

Create HintDb maint discriminated.

(** One step of a proof of [maintains I P c] that follows the shape of [c];
    [tacI] proves [I s -> I (f s)] for the updates [modify f] and [tacP]
    proves [P e] for the exceptions [raise e]. *)
Ltac maint_step tacI tacP :=
  lazymatch goal with
  | |- maintains _ _ (ret _) => apply maintains_ret
  | |- maintains _ _ (raise _) => apply maintains_raise; tacP
  | |- maintains _ _ get => apply maintains_get
  | |- maintains _ _ (bind _ _) => apply maintains_bind; [|intros ?]
  | |- maintains _ _ (modify _) => apply maintains_modify; intros ? ?; tacI
  | |- maintains _ _ (changelog_append _) =>
      unfold changelog_append; apply maintains_modify; intros ? ?; tacI
  | |- maintains _ _ (for_each _ _) => apply maintains_for_each; intros ?
  | |- maintains _ _ (collect _ _) => apply maintains_collect; intros ?
  | |- maintains _ _ (match ?x with _ => _ end) => destruct x
  | |- maintains _ _ ?c =>
      first [ solve [auto with maint]
            | let h := head_of c in progress unfold h ]
  end.
Ltac maint tacI tacP := cbv zeta; repeat (maint_step tacI tacP; cbv beta zeta).

(** An update that touches neither the buffer nor the counter. *)
Ltac capacity_update :=
  unfold capacity_ok in *; repeat case_match; simpl; assumption.
Ltac capacity_frame := maint capacity_update ltac:(done).

Lemma _add_cuboid_primitive_maintains c :
  maintains capacity_ok (fun e => e <> Diverges) (_add_cuboid_primitive c).
Proof.
  intros s r s' HI H. split; [by eapply _add_cuboid_primitive_capacity|].
  assert (Hr : raises_only (fun e => e <> Diverges) (_add_cuboid_primitive c))
    by repeat (raises_step ltac:(done); cbv beta zeta).
  exact (Hr _ _ _ H).
Qed.

Lemma transform_primitive_maintains func primitive_id :
  maintains capacity_ok (fun e => e <> Diverges) (transform_primitive func primitive_id).
Proof.
  intros s r s' HI H. unfold transform_primitive in H. minv_all; [|done].
  inv_modify. unfold capacity_ok in *. simpl. by rewrite length_insert.
Qed.

Lemma transform_composite_maintains func composite_id :
  maintains capacity_ok (fun e => e <> Diverges) (transform_composite func composite_id).
Proof.
  intros s r s' HI H. unfold transform_composite in H. cbv zeta in H. minv_all.
  inv_modify. unfold capacity_ok in *. simpl.
  by rewrite length_list_set_slice by (by rewrite length_fmap, length_get_slice).
Qed.

#[export] Hint Resolve _add_cuboid_primitive_maintains _add_cuboid_composite_capacity
  transform_primitive_maintains transform_composite_maintains : maint.

Lemma run_call_maintains new_cuboid new_composite c :
  maintains capacity_ok (fun e => e <> Diverges) (run_call new_cuboid new_composite c).
Proof. destruct c; simpl; capacity_frame. Qed.

Lemma reachable_capacity new_cuboid new_composite s :
  reachable new_cuboid new_composite s -> capacity_ok s.
Proof.
  induction 1 as [|s c r s' _ IH Hcall].
  - unfold capacity_ok. simpl. lia.
  - exact (proj1 (run_call_maintains _ _ _ _ _ _ IH Hcall)).
Qed.

Lemma matching_base_vectors_total coordinates coordinate idxs :
  Forall (fun idx => idx < length coordinates) idxs ->
  is_Some (matching_base_vectors coordinates coordinate idxs).
Proof.
  induction 1 as [|idx idxs Hidx _ IH]; simpl; [eauto|].
  destruct (lookup_lt_is_Some_2 _ _ Hidx) as [row ->].
  destruct IH as [rest ->]. simpl. eauto.
Qed.

(** X20.  In every store that a program can reach, the buffer of rows is not
    empty and holds a row for every primitive counted. *)
Theorem buffer_holds_every_counted_row new_cuboid new_composite s :
  reachable new_cuboid new_composite s ->
  0 < length (cuboid_coordinates s) /\
  forall i, i < primitive_counter s -> is_Some (cuboid_coordinates s !! i).
Proof.
  intros Hs. destruct (reachable_capacity _ _ _ Hs) as [Hpos Hpc].
  split; [done|]. intros i Hi. apply lookup_lt_is_Some_2. lia.
Qed.

Lemma buffer_holds_every_counted_row_witness :
  reachable example_cuboid example_composite foo_store /\
  is_Some (cuboid_coordinates foo_store !! 0).
Proof.
  assert (H : reachable example_cuboid example_composite foo_store).
  { apply (reachable_call _ _ init (AddCube foo_cube) (Ok tt));
      [apply reachable_init | vm_compute; reflexivity]. }
  split; [exact H|].
  apply (proj2 (buffer_holds_every_counted_row _ _ _ H) 0).
  vm_compute. lia.
Defined.

(** X21.  On a store that a program can reach, every call ends: the loop of
    [_add_cuboid_composite] that doubles the capacity until twice the
    capacity holds the composite starts from a capacity that is not zero,
    so it is left after finitely many turns. *)
Theorem calls_end_on_reachable_stores new_cuboid new_composite s c r s' :
  reachable new_cuboid new_composite s ->
  run_call new_cuboid new_composite c s = (r, s') ->
  r <> Raise Diverges.
Proof.
  intros Hs Hcall. apply reachable_capacity in Hs.
  destruct (run_call_maintains _ _ _ _ _ _ Hs Hcall) as [_ Hr].
  destruct r as [|e]; [done|]. by intros [= ->].
Qed.

Lemma calls_end_on_reachable_stores_witness :
  reachable example_cuboid example_composite foo_store /\
  outcome (add_composite (row_composite 30)) foo_store <> Raise Diverges.
Proof.
  assert (H : reachable example_cuboid example_composite foo_store).
  { apply (reachable_call _ _ init (AddCube foo_cube) (Ok tt));
      [apply reachable_init | vm_compute; reflexivity]. }
  split; [exact H|].
  apply (calls_end_on_reachable_stores example_cuboid example_composite foo_store
           (AddComposite (row_composite 30)) _
           (after (add_composite (row_composite 30)) foo_store) H).
  simpl. unfold outcome, after. by destruct (add_composite _ _).
Defined.

(** X22.  On a store that a program can reach, selecting by a coordinate with
    three components returns: every row that the loop over
    [range(self.primitive_counter)] reads is in the buffer. *)
Theorem coordinate_selection_returns new_cuboid new_composite s x y z :
  reachable new_cuboid new_composite s ->
  exists ids, _select_by_coordinate [x; y; z] s = (Ok ids, s).
Proof.
  intros Hs. destruct (reachable_capacity _ _ _ Hs) as [_ Hpc].
  unfold _select_by_coordinate, bind, get. cbv zeta.
  destruct (matching_base_vectors_total (cuboid_coordinates s)
              (_convert_basis (V3 x y z)) (seq 0 (primitive_counter s)))
    as [matching ->]; [|eauto].
  apply Forall_forall. intros idx Hidx%elem_of_seq. lia.
Qed.

Lemma coordinate_selection_returns_witness :
  reachable example_cuboid example_composite foo_store /\
  exists ids, _select_by_coordinate [1; 2; 3]%Q foo_store = (Ok ids, foo_store).
Proof.
  assert (H : reachable example_cuboid example_composite foo_store).
  { apply (reachable_call _ _ init (AddCube foo_cube) (Ok tt));
      [apply reachable_init | vm_compute; reflexivity]. }
  split; [exact H|].
  exact (coordinate_selection_returns _ _ foo_store 1%Q 2%Q 3%Q H).
Defined.

(** * Further properties: the rows that are stored *)

#[local] Instance rows_kept_preorder : PreOrder rows_kept.
Proof.
  split.
  - intros s. split; [lia|auto].
  - intros s1 s2 s3 [Hpc1 H1] [Hpc2 H2]. split; [lia|].
    intros i row Hi Hrow. apply H2; [lia|]. by apply H1.
Qed.

Lemma rows_kept_resize s n :
  length (cuboid_coordinates s) <= n ->
  rows_kept s (set_cuboid_coordinates (np_resize zero_faces n (cuboid_coordinates s)) s).
Proof.
  intros Hn. split; simpl; [lia|]. intros i row _ Hrow.
  rewrite np_resize_lookup; [done| |done]. by eapply lookup_lt_Some.
Qed.

Lemma rows_kept_set_slice s stop block coordinates :
  np_set_slice (cuboid_coordinates s) (Slice (primitive_counter s) stop) block
  = Some coordinates ->
  rows_kept s (set_cuboid_coordinates coordinates s).
Proof.
  intros Hset. split; simpl; [lia|]. intros i row Hi Hrow.
  pose proof (lookup_lt_Some _ _ _ Hrow) as Hlt.
  assert (Hlo : ~ (clip_lo (Slice (primitive_counter s) stop)
                           (length (cuboid_coordinates s)) <= i
                   < clip_hi (Slice (primitive_counter s) stop)
                             (length (cuboid_coordinates s))))
    by (unfold clip_lo; simpl; lia).
  unfold np_set_slice in Hset. cbv zeta in Hset. case_decide as Hlen.
  - injection Hset as <-. rewrite lookup_list_set_slice by done.
    by rewrite decide_False.
  - destruct block as [|v [|? ?]]; try done. injection Hset as <-.
    unfold np_fill_slice.
    rewrite lookup_list_set_slice by (by rewrite length_replicate).
    by rewrite decide_False.
Qed.

(** An update that leaves the stored rows in their places. *)
Ltac rows_update :=
  unfold rows_kept; repeat case_match; simpl;
  (split; [lia|]); intros ? ? ? Hrow_kept; try assumption;
  first
    [ rewrite np_resize_lookup;
      [assumption | by eapply lookup_lt_Some | lia]
    | rewrite list_lookup_insert_ne by lia; assumption ].

Ltac chain_rows :=
  repeat match goal with
  | H : ?c ?s = (_, ?s') |- _ =>
      let K := fresh "K" in
      assert (K : rows_kept s s')
        by (refine ((_ : preserves rows_kept c) _ _ _ H); pres rows_update);
      clear H
  end.

Ltac close_chain :=
  repeat match goal with
  | K : rows_kept ?a ?b |- rows_kept ?a _ =>
      first [ exact K | transitivity b; [exact K|]; clear K ]
  end;
  try reflexivity.

Lemma _add_cuboid_primitive_rows_kept c : preserves rows_kept (_add_cuboid_primitive c).
Proof. pres rows_update. Qed.

Lemma _add_cuboid_composite_rows_kept c : preserves rows_kept (_add_cuboid_composite c).
Proof.
  intros s r s' H. unfold _add_cuboid_composite in H. cbv zeta in H. minv_all.
  all: try match goal with
       | H : double_until _ _ _ = Some _ |- _ => apply double_until_grows in H
       end.
  all: repeat match goal with
       | H : modify (fun s => set_cuboid_coordinates (np_resize _ _ _) s) ?a = (_, ?b)
         |- _ =>
           assert (rows_kept a b)
             by (inversion H; subst; apply rows_kept_resize; lia);
           clear H
       | H : modify (set_cuboid_coordinates ?l) ?a = (_, ?b),
         Hs : np_set_slice (cuboid_coordinates ?a) _ _ = Some ?l |- _ =>
           assert (rows_kept a b)
             by (inversion H; subst; eapply rows_kept_set_slice; eauto);
           clear H
       end.
  all: chain_rows.
  all: close_chain.
Qed.

#[export] Hint Resolve _add_cuboid_primitive_rows_kept
  _add_cuboid_composite_rows_kept : pres.

Lemma run_call_rows_kept new_cuboid new_composite c :
  (forall sel translate reflect, c <> TransformBy sel translate reflect) ->
  preserves rows_kept (run_call new_cuboid new_composite c).
Proof.
  intros Hc.
  destruct c; simpl; try (by destruct (Hc sel translate reflect)); pres rows_update.
Qed.

(** X23.  Only a transform rewrites a row that is stored: after any other
    call, however it ends, every primitive that was counted has the row it
    had, also when the buffer was resized in between. *)
Theorem only_transforms_rewrite_rows new_cuboid new_composite c s r s' i row :
  run_call new_cuboid new_composite c s = (r, s') ->
  (forall sel translate reflect, c <> TransformBy sel translate reflect) ->
  i < primitive_counter s ->
  cuboid_coordinates s !! i = Some row ->
  cuboid_coordinates s' !! i = Some row.
Proof.
  intros Hcall Hc Hi Hrow.
  destruct (run_call_rows_kept _ _ _ Hc _ _ _ Hcall) as [_ Hkept]. by apply Hkept.
Qed.

Lemma only_transforms_rewrite_rows_witness :
  cuboid_coordinates (after (add_composite (row_composite 30)) foo_store) !! 0
  = Some (obj_faces foo_cube).
Proof.
  assert (H : run_call example_cuboid example_composite
                (AddComposite (row_composite 30)) foo_store
              = (Ok tt, after (add_composite (row_composite 30)) foo_store))
    by (vm_compute; reflexivity).
  apply (only_transforms_rewrite_rows _ _ _ _ _ _ 0 (obj_faces foo_cube) H).
  - intros sel translate reflect. discriminate.
  - vm_compute. lia.
  - vm_compute. reflexivity.
Defined.

(** * Further properties: the property columns *)

#[local] Instance columns_kept_preorder named : PreOrder (columns_kept named).
Proof.
  split.
  - intros s key. done.
  - intros s1 s2 s3 H1 H2 key. destruct (H1 key) as [Ha Hb], (H2 key) as [Hc Hd].
    split; [by rewrite Hc|]. intros Hk. by rewrite Hd, Hb.
Qed.

(** An update that does not touch the property columns. *)
Ltac columns_update := unfold columns_kept; repeat case_match; by simpl.

Lemma columns_kept_insert named key col col' s :
  key ∈ named ->
  cuboid_visual_metadata s !! key = Some col ->
  columns_kept named s
    (set_cuboid_visual_metadata (<[key := col']> (cuboid_visual_metadata s)) s).
Proof.
  intros Hin Hcol k. simpl. destruct (decide (k = key)) as [->|Hne].
  - rewrite lookup_insert_eq, Hcol. split; [by split; eauto|done].
  - by rewrite lookup_insert_ne.
Qed.

Lemma metadata_set_columns named key i value :
  key ∈ named -> preserves (columns_kept named) (metadata_set key i value).
Proof.
  intros Hin s r s' H. unfold metadata_set in H. minv_all; try reflexivity.
  inv_modify. by eapply columns_kept_insert.
Qed.

Lemma metadata_set_slice_columns named key composite_id values :
  key ∈ named ->
  preserves (columns_kept named) (metadata_set_slice key composite_id values).
Proof.
  intros Hin s r s' H. unfold metadata_set_slice in H. minv_all; try reflexivity.
  inv_modify. by eapply columns_kept_insert.
Qed.

Lemma mutate_property_columns named ps cs key value :
  key ∈ named ->
  preserves (columns_kept named) (mutate_property ps cs (key, value)).
Proof.
  intros Hin. unfold mutate_property, mutate_primitive, mutate_composite.
  pose proof (metadata_set_columns named key) as Hset.
  pose proof (metadata_set_slice_columns named key) as Hslice.
  pres columns_update; auto.
Qed.

Lemma collect_mutate_columns named ps cs kwargs :
  kwargs.*1 ⊆ named ->
  preserves (columns_kept named) (collect kwargs (mutate_property ps cs)).
Proof.
  induction kwargs as [|[key value] kwargs IH]; intros Hsub; simpl.
  - apply preserves_ret; apply _.
  - apply preserves_bind; [apply _| |intros entry].
    + apply mutate_property_columns. apply Hsub. simpl. apply list_elem_of_here.
    + apply preserves_bind; [apply _| |intros entries; apply preserves_ret; apply _].
      apply IH. intros k Hk. apply Hsub. simpl. by apply list_elem_of_further.
Qed.

Lemma select_columns named sel : preserves (columns_kept named) (select sel).
Proof. intros s r s' H. apply select_unchanged in H as ->. reflexivity. Qed.

Lemma mutate_by_columns sel kwargs :
  preserves (columns_kept kwargs.*1) (mutate_by sel kwargs).
Proof.
  unfold mutate_by, _mutate_by_ids.
  pose proof (select_columns kwargs.*1 sel) as Hsel.
  pose proof (fun ps cs => collect_mutate_columns kwargs.*1 ps cs kwargs
                             (reflexivity _)) as Hcollect.
  cbv zeta. apply preserves_bind; [apply _|done|intros [ps cs]].
  destruct (negb _); [apply preserves_ret; apply _|].
  apply preserves_bind; [apply _| |intros ?; pres columns_update].
  apply preserves_bind; [apply _|apply Hcollect|intros ?].
  pres columns_update.
Qed.

(** X24.  A mutation, however it ends, adds no property and removes none,
    and it leaves every column that its keywords do not name as it was. *)
Theorem mutation_writes_named_columns_only sel kwargs s r s' key :
  mutate_by sel kwargs s = (r, s') ->
  (is_Some (cuboid_visual_metadata s' !! key)
   <-> is_Some (cuboid_visual_metadata s !! key)) /\
  (key ∉ kwargs.*1 ->
   cuboid_visual_metadata s' !! key = cuboid_visual_metadata s !! key).
Proof. intros H. exact (mutate_by_columns _ _ _ _ _ H key). Qed.

Lemma mutation_writes_named_columns_only_witness :
  cuboid_visual_metadata (after paint_foo foo_store) !! "alpha"
  = cuboid_visual_metadata foo_store !! "alpha".
Proof.
  assert (H : mutate_by (ByName "foo") [("facecolor", PyStr "red")] foo_store
              = (Ok tt, after paint_foo foo_store)) by (vm_compute; reflexivity).
  apply (proj2 (mutation_writes_named_columns_only _ _ _ _ _ "alpha" H)).
  simpl. intros Hin. apply list_elem_of_singleton in Hin. discriminate Hin.
Defined.

Lemma transform_by_rows sel translate reflect s s' :
  transform_by sel translate reflect s = (Ok tt, s') ->
  exists primitive_ids composite_ids func,
    select sel s = (Ok (primitive_ids, composite_ids), s) /\
    forall i, cuboid_coordinates s' !! i
              = Nat.iter (touches primitive_ids composite_ids i) func
                  <$> cuboid_coordinates s !! i.
Proof.
  unfold transform_by. intros H.
  apply bind_ok_inv in H as ([ps cs] & s1 & Hsel & H).
  pose proof (select_unchanged _ _ _ _ Hsel) as ->.
  destruct (exactly_one_set translate reflect) eqn:Hone; simpl in H; [|discriminate].
  destruct (transform_bindings translate reflect) as [[[val func] kwargs]|] eqn:Hb;
    [|discriminate].
  exists ps, cs. destruct (negb _) eqn:Hnoop in H.
  - inversion H; subst. exists (fun row => row). split; [done|]. intros i.
    induction (touches ps cs i) as [|n IH]; simpl; [by rewrite option_fmap_id|done].
  - apply bind_ok_inv in H as ([] & s2 & Happ & H).
    inversion Happ; subst; clear Happ.
    exists func. split; [done|]. intros i.
    by rewrite (_transform_by_ids_rows _ _ _ _ _ H i).
Qed.

(** X25.  A transform that returns leaves every row outside its selection as
    it was: a row whose id is not among the selected primitives and lies
    in none of the selected ranges. *)
Theorem transform_leaves_other_rows sel translate reflect s s' primitive_ids
    composite_ids i :
  transform_by sel translate reflect s = (Ok tt, s') ->
  select sel s = (Ok (primitive_ids, composite_ids), s) ->
  i ∉ primitive_ids ->
  (forall c, c ∈ composite_ids -> ~ covers c i) ->
  cuboid_coordinates s' !! i = cuboid_coordinates s !! i.
Proof.
  intros H Hsel Hp Hc.
  destruct (transform_by_rows _ _ _ _ _ H) as (ps & cs & func & Hsel' & Hrows).
  rewrite Hsel in Hsel'. simplify_eq.
  assert (Hnone : touches ps cs i = 0).
  { unfold touches. apply filter_length_zero. intros HE.
    apply Exists_exists in HE as (c & Hin & Hcov).
    unfold selection_slices in Hin. apply elem_of_app in Hin as [Hin|Hin].
    - apply list_elem_of_fmap in Hin as (p & -> & Hin).
      unfold covers, unit_slice in Hcov. simpl in Hcov.
      assert (i = p) by lia. by subst.
    - by apply (Hc c). }
  rewrite Hrows, Hnone. simpl. apply option_fmap_id.
Qed.

Lemma transform_leaves_other_rows_witness :
  cuboid_coordinates (after move_foo two_cube_store) !! 1
  = cuboid_coordinates two_cube_store !! 1.
Proof.
  assert (H : transform_by (ByName "foo") (Some (V3 5 0 0)) None two_cube_store
              = (Ok tt, after move_foo two_cube_store)) by (vm_compute; reflexivity).
  assert (Hsel : select (ByName "foo") two_cube_store = (Ok ([0], []), two_cube_store))
    by (vm_compute; reflexivity).
  apply (transform_leaves_other_rows _ _ _ _ _ _ _ 1 H Hsel).
  - intros Hin. apply list_elem_of_singleton in Hin. discriminate Hin.
  - intros c Hin. destruct (proj1 (elem_of_nil c) Hin).
Defined.

(** X26.  After a run of calls that all returned on a new [Space()], the
    time-step is the number of entries in the log, and every [Addition]
    entry holds its own position in the log. *)
Theorem log_of_returned_calls new_cuboid new_composite calls s :
  for_each calls (run_call new_cuboid new_composite) init = (Ok tt, s) ->
  time_step s = length (changelog s) /\
  forall i timestep_id name,
    changelog s !! i = Some (Addition timestep_id name) -> timestep_id = i.
Proof.
  intros H. apply (run_calls_log_in_step _ _ _ _ _ H).
  split; [done|]. intros i t n Hi. done.
Qed.

Lemma log_of_returned_calls_witness :
  time_step two_cube_store = length (changelog two_cube_store).
Proof.
  assert (H : for_each [AddCube foo_cube; AddCube (unit_cube (V3 5 5 5) None)]
                (run_call example_cuboid example_composite) init
              = (Ok tt, two_cube_store)) by (vm_compute; reflexivity).
  exact (proj1 (log_of_returned_calls _ _ _ _ H)).
Defined.

(** * Further properties: clones *)

Lemma collect_adds_objects {A B} (l : list A) (body : A -> M B) s bs s' :
  (forall x s b s', body x s = (Ok b, s') -> num_objs s' = num_objs s + 1) ->
  collect l body s = (Ok bs, s') ->
  num_objs s' = num_objs s + length l.
Proof.
  intros Hbody. revert s bs. induction l as [|x l IH]; intros s bs H; simpl in H.
  - inversion H; subst. simpl. lia.
  - apply bind_ok_inv in H as (b & s1 & H1 & H).
    apply bind_ok_inv in H as (bs' & s2 & H2 & H). inversion H; subst.
    apply Hbody in H1. apply IH in H2. simpl. lia.
Qed.

Lemma collect_length {A B} (l : list A) (body : A -> M B) s bs s' :
  collect l body s = (Ok bs, s') -> length bs = length l.
Proof.
  revert s bs. induction l as [|x l IH]; intros s bs H; simpl in H.
  - by inversion H; subst.
  - apply bind_ok_inv in H as (b & s1 & H1 & H).
    apply bind_ok_inv in H as (bs' & s2 & H2 & H). inversion H; subst.
    apply IH in H2. simpl. lia.
Qed.

(** X27.  A clone that returns adds one object for every object of its
    selection, and all of them at one time-step: the counter of objects
    grows by the size of the selection, while the log gets one [Addition]
    entry, without a name, and the time-step moves on by one. *)
Theorem clone_adds_one_object_each new_cuboid new_composite offset coordinate name
    timestep scene kwargs sel primitive_ids composite_ids s s' :
  clone_by_offset new_cuboid new_composite offset coordinate name timestep scene
                  kwargs s = (Ok tt, s') ->
  (coordinate, name, timestep, scene)
  = (sel_coordinate sel, sel_name sel, sel_timestep sel, sel_scene sel) ->
  select sel s = (Ok (primitive_ids, composite_ids), s) ->
  0 < length primitive_ids + length composite_ids ->
  num_objs s' = num_objs s + length primitive_ids + length composite_ids /\
  changelog s' = changelog s ++ [Addition (time_step s) None] /\
  time_step s' = time_step s + 1.
Proof.
  unfold clone_by_offset. cbv zeta. intros H Hsel Hselect Hne.
  destruct sel; simpl in Hsel, Hselect; simplify_eq.
  all: rewrite bool_decide_eq_true_2 in H by (simpl; lia); cbn [negb] in H.
  all: apply bind_ok_inv in H as ([ps cs] & s1 & Hf & H).
  all: rewrite Hselect in Hf; injection Hf as <- <- <-.
  all: match type of H with
       | context [bool_decide (length ?p = 0) && bool_decide (length ?c = 0)] =>
           replace (bool_decide (length p = 0) && bool_decide (length c = 0))
             with false in H
             by (symmetry; apply andb_false_iff; rewrite !bool_decide_eq_false; lia)
       end.
  all: apply bind_ok_inv in H as (interleaved_kwargs & s2 & Hkw & H).
  all: apply bind_ok_inv in H as (new_primitive_ids & s3 & Hps & H).
  all: apply bind_ok_inv in H as (new_composite_ids & s4 & Hcs & H).
  all: pose proof (collect_length _ _ _ _ _ Hkw) as Hlen;
       rewrite length_seq in Hlen.
  all: assert (Hkeep : keeps (fun s => (num_objs s, changelog s, time_step s)) s s2)
         by (refine ((_ : preserves _ _) _ _ _ Hkw); keeps_frame).
  all: assert (Hlog3 : keeps (fun s => (changelog s, time_step s)) s2 s3)
         by (refine ((_ : preserves _ _) _ _ _ Hps); keeps_frame).
  all: assert (Hlog4 : keeps (fun s => (changelog s, time_step s)) s3 s4)
         by (refine ((_ : preserves _ _) _ _ _ Hcs); keeps_frame).
  all: apply collect_adds_objects in Hps;
       [|intros [p v] sa b sb Hb; minv; inv_modify; chain num_objs;
         unfold keeps in *; simpl in *; congruence].
  all: apply collect_adds_objects in Hcs;
       [|intros [p v] sa b sb Hb; minv; inv_modify; chain num_objs;
         unfold keeps in *; simpl in *; congruence].
  all: rewrite length_zip_with in Hps; rewrite length_zip_with in Hcs.
  all: minv; chain (fun s => (num_objs s, changelog s, time_step s));
       unfold changelog_append in *; inv_modify;
       unfold keeps in *; simpl in *; simplify_eq; simpl in *.
  all: repeat split; [lia | congruence | congruence].
Qed.

Lemma clone_adds_one_object_each_witness :
  num_objs (after (clone_by_offset example_cuboid example_composite
                     (V3 2 0 0) None (Some "foo") None None []) foo_store)
  = 2.
Proof.
  assert (H : clone_by_offset example_cuboid example_composite
                (V3 2 0 0) None (Some "foo") None None [] foo_store
              = (Ok tt, after (clone_by_offset example_cuboid example_composite
                                 (V3 2 0 0) None (Some "foo") None None []) foo_store))
    by (vm_compute; reflexivity).
  assert (Hsel : select (ByName "foo") foo_store = (Ok ([0], []), foo_store))
    by (vm_compute; reflexivity).
  exact (proj1 (clone_adds_one_object_each _ _ _ _ _ _ _ _ (ByName "foo") [0] []
                  _ _ H eq_refl Hsel (Nat.lt_0_succ 0))).
Defined.

(** * Further properties: calls that are refused before they write *)

Lemma raises_only_collect {A B} (P : pyexc -> Prop) (l : list A) (body : A -> M B) :
  (forall x, raises_only P (body x)) -> raises_only P (collect l body).
Proof.
  intros Hb. induction l as [|x l IH]; simpl.
  - apply raises_only_ret.
  - apply raises_only_bind; [auto|]. intros b.
    apply raises_only_bind; [auto|]. intros bs. apply raises_only_ret.
Qed.

Ltac raises_step_collect tac :=
  lazymatch goal with
  | |- raises_only _ (collect _ _) => apply raises_only_collect; intros ?
  | |- raises_only _ (changelog_append _) =>
      unfold changelog_append; apply raises_only_modify
  | _ => raises_step tac
  end.
Ltac raises tac := cbv zeta; repeat (raises_step_collect tac; cbv beta zeta).

Lemma _mutate_by_ids_raises ps cs kwargs :
  raises_only (fun e => e <> ValueError) (_mutate_by_ids ps cs kwargs).
Proof. raises ltac:(done). Qed.

(** X28.  A mutation that ends with a [ValueError] has written nothing: the
    [ValueError] is the one of its selection, which runs before the first
    write, and nothing that a mutation does after the selection raises
    one. *)
Theorem mutation_value_error_means_unchanged sel kwargs s s' :
  mutate_by sel kwargs s = (Raise ValueError, s') ->
  s' = s /\ select sel s = (Raise ValueError, s).
Proof.
  unfold mutate_by. intros H.
  apply bind_inv in H as [([ps cs] & s1 & Hsel & H)|(e & Hsel & [= <-])].
  - exfalso. apply select_unchanged in Hsel as ->.
    destruct (negb _) in H; [by inversion H|].
    apply bind_inv in H as [(prev & s2 & _ & H)|(e & H & [= <-])]; [by inversion H|].
    apply _mutate_by_ids_raises in H. done.
  - pose proof (select_unchanged _ _ _ _ Hsel) as ->. done.
Qed.

Lemma mutation_value_error_means_unchanged_witness :
  after (mutate_by (ByName "bar") [("alpha", PyFloat 1)]) foo_store = foo_store.
Proof.
  assert (H : mutate_by (ByName "bar") [("alpha", PyFloat 1)] foo_store
              = (Raise ValueError,
                 after (mutate_by (ByName "bar") [("alpha", PyFloat 1)]) foo_store))
    by (vm_compute; reflexivity).
  exact (proj1 (mutation_value_error_means_unchanged _ _ _ _ H)).
Defined.

Section CloneRefused.
Variable new_cuboid : vec3 -> vec3 -> gmap string pyval -> Cuboid.
Variable new_composite : vec3 -> vec3 -> gmap string pyval -> CompositeCube.

(** X29.  A clone that ends with a [KeyError] has created nothing: the
    keyword arguments are checked against the visual properties for every
    selected object before the first object is created. *)
Theorem clone_key_error_means_unchanged offset coordinate name timestep scene kwargs
    s s' :
  clone_by_offset new_cuboid new_composite offset coordinate name timestep scene
                  kwargs s = (Raise KeyError, s') ->
  s' = s.
Proof.
  unfold clone_by_offset. cbv zeta. intros H.
  destruct (negb _) in H; [by inversion H|].
  apply bind_inv in H as [([ps cs] & s1 & Hsel & H)|(e & Hsel & _)].
  2: { assert (Hk : keeps (fun s => s) s s')
         by (refine ((_ : preserves _ _) _ _ _ Hsel); keeps_frame).
       exact Hk. }
  assert (Hk : keeps (fun s => s) s s1)
    by (refine ((_ : preserves _ _) _ _ _ Hsel); keeps_frame).
  unfold keeps in Hk. subst s1. clear Hsel.
  destruct (_ && _) in H; [by inversion H|].
  apply bind_inv in H as [(ik & s2 & Hkw & H)|(e & Hkw & _)].
  2: { assert (Hk : keeps (fun s => s) s s')
         by (refine ((_ : preserves _ _) _ _ _ Hkw); keeps_frame).
       exact Hk. }
  exfalso. clear Hkw.
  refine ((_ : raises_only (fun e => e <> KeyError) _) _ _ _ H eq_refl).
  raises ltac:(done).
Qed.
End CloneRefused.

Lemma clone_key_error_means_unchanged_witness :
  after (clone_by_offset example_cuboid example_composite (V3 2 0 0)
           None (Some "foo") None None [("colour", PyStr "red")]) foo_store
  = foo_store.
Proof.
  assert (H : clone_by_offset example_cuboid example_composite (V3 2 0 0)
                None (Some "foo") None None [("colour", PyStr "red")] foo_store
              = (Raise KeyError,
                 after (clone_by_offset example_cuboid example_composite (V3 2 0 0)
                          None (Some "foo") None None [("colour", PyStr "red")])
                       foo_store))
    by (vm_compute; reflexivity).
  exact (clone_key_error_means_unchanged _ _ _ _ _ _ _ _ _ _ H).
Defined.

(** * Names and the log *)

Lemma mutate_by_entry sel kwargs s s' :
  mutate_by sel kwargs s = (Ok tt, s') ->
  changelog s' <> changelog s ->
  exists subject, changelog s' = changelog s ++ [mutation_entry subject sel].
Proof.
  unfold mutate_by, _mutate_by_ids. cbv zeta. intros H Hlog. minv; log_facts.
  all: first
         [ exfalso; apply Hlog; simpl; congruence
         | simpl; eexists;
           repeat match goal with
                  | H : changelog _ = _ |- _ => rewrite H; clear H
                  end; reflexivity ].
Qed.

(** C10, as stated, fails.  The cube ["foo"] has its name in the name index;
    painting it by name appends a [Mutation] entry that holds the name. *)
Lemma name_is_logged_by_mutation :
  cuboid_names foo_store !! "foo" = Some (Some [0], None) /\
  outcome paint_foo foo_store = Ok tt /\
  last (changelog (after paint_foo foo_store))
    = Some (Mutation [("facecolor", [PyNone])] (Some "foo") None None None).
Proof. vm_compute. repeat split. Qed.

(** C10, amended.  In every store that a program can reach, every [Addition]
    entry of the change log has the name [None], also when the object that
    was added had a name; the name given to [add_cube], [add_cuboid] or
    [add_composite] is bound in the name index to the new id, or to the new
    range of ids, while the entry appended is [Addition(time_step, None)].
    The log does hold names, though never in an [Addition]: the entry of a
    mutation or of a transform that selects by name records that name. *)
Theorem addition_entries_are_unnamed new_cuboid new_composite s :
  reachable new_cuboid new_composite s ->
  (forall timestep_id name,
     Addition timestep_id name ∈ changelog s -> name = None) /\
  (forall cube n s',
     add_cube cube s = (Ok tt, s') \/ add_cuboid cube s = (Ok tt, s') ->
     obj_name cube = Some n ->
     cuboid_names s' !! n = Some (Some [primitive_counter s], None) /\
     changelog s' = changelog s ++ [Addition (time_step s) None]) /\
  (forall composite n s',
     add_composite composite s = (Ok tt, s') -> comp_name composite = Some n ->
     cuboid_names s' !! n
     = Some (None, Some [Slice (primitive_counter s)
                               (primitive_counter s + length (comp_faces composite))]) /\
     changelog s' = changelog s ++ [Addition (time_step s) None]) /\
  (forall n kwargs s',
     mutate_by_name n kwargs s = (Ok tt, s') -> changelog s' <> changelog s ->
     exists subject,
       changelog s' = changelog s ++ [Mutation subject (Some n) None None None]) /\
  (forall n translate reflect s',
     transform_by_name n translate reflect s = (Ok tt, s') ->
     changelog s' <> changelog s ->
     exists transform transform_name,
       changelog s' = changelog s ++
         [Transform transform transform_name (Some n) None None None]).
Proof.
  intros Hs. split; [|split; [|split; [|split]]].
  - intros t name Hin. apply reachable_log in Hs.
    rewrite Forall_forall in Hs. exact (Hs _ Hin).
  - intros cube n s' [H|H] Hn; exact (add_cube_named _ _ _ _ H Hn).
  - intros composite n s' H Hn. split; [by apply add_composite_named|].
    by destruct (add_composite_step _ _ _ H) as [? _].
  - intros n kwargs s' H Hlog. exact (mutate_by_entry _ _ _ _ H Hlog).
  - intros n translate reflect s' H Hlog.
    destruct (transform_by_effect _ _ _ _ _ H Hlog)
      as (ps & cs & val & func & kwargs & _ & _ & _ & Hentry & _).
    by exists kwargs.1, kwargs.2.
Qed.

(** The store after [add_cube] of the cube named ["foo"] is reachable; its one
    [Addition] entry names nothing; and the composite named ["bar"] that is
    added to it is bound to the ids 1 and 2 while its entry names nothing. *)
Lemma addition_entries_are_unnamed_witness :
  reachable example_cuboid example_composite foo_store /\
  (forall timestep_id name,
     Addition timestep_id name ∈ changelog foo_store -> name = None) /\
  cuboid_names (after (add_composite bar_composite) foo_store) !! "bar"
  = Some (None, Some [Slice 1 3]).
Proof.
  assert (H : reachable example_cuboid example_composite foo_store).
  { apply (reachable_call _ _ init (AddCube foo_cube) (Ok tt));
      [apply reachable_init | vm_compute; reflexivity]. }
  assert (Hbar : add_composite bar_composite foo_store
                 = (Ok tt, after (add_composite bar_composite) foo_store))
    by (vm_compute; reflexivity).
  destruct (addition_entries_are_unnamed example_cuboid example_composite foo_store H)
    as (Hadd & _ & Hcomp & _).
  split; [exact H|]. split; [exact Hadd|].
  exact (proj1 (Hcomp bar_composite "bar" _ Hbar eq_refl)).
Defined.
